(** * Color cycling: a shallow embedding of [color_cycling.py]

    The development follows the numbered stages of [main]:
    stage 3 (ownership registry), stage 5 (number of frames) and
    stage 6 (per-frame substitution table and pixel rewriting).
    Python dictionaries and sets are [gmap]/[gset]; the pixel buffers,
    which the program copies and then updates in place, live in an
    explicit store of list objects. *)

From stdpp Require Import gmap list.
From stdpp Require Import strings.
From Stdlib Require Import Ascii.
From Stdlib Require Import ZArith Znumtheory.

Local Open Scope Z_scope.

(** An RGB tuple as produced by [hex_to_rgb] and [Image.getdata]. *)
Abbreviation Color := (Z * Z * Z)%type.

(** ** Stage 3: the ownership registry (lines 100-117) *)

Module Registry.

(** The three accumulators of stage 3, plus the duplicate warnings
    written to stderr, in emission order (each carries the colour that
    the message names). *)
Record state := State {
  color_list_map : gmap Color nat;
  all_target_colors_rgb : gset Color;
  warnings : list Color
}.

Definition initial : state := State ∅ ∅ [].

(** Body of [for color_rgb in rgb_list] (lines 111-117). *)
Definition register_color (i : nat) (st : state) (color_rgb : Color) : state :=
  if decide (color_rgb ∈ all_target_colors_rgb st)
  then State (color_list_map st)
             ({[color_rgb]} ∪ all_target_colors_rgb st)
             (warnings st ++ [color_rgb])
  else State (<[color_rgb := i]> (color_list_map st))
             ({[color_rgb]} ∪ all_target_colors_rgb st)
             (warnings st).

(** One iteration of [for i, hex_list in enumerate(color_lists_hex)],
    taken after the conversion of line 107. *)
Definition register_group (i : nat) (st : state) (rgb_list : list Color) : state :=
  foldl (register_color i) st rgb_list.

Fixpoint register_groups (i : nat) (color_lists_rgb : list (list Color))
    (st : state) : state :=
  match color_lists_rgb with
  | [] => st
  | rgb_list :: rest => register_groups (S i) rest (register_group i st rgb_list)
  end.

Definition build (color_lists_rgb : list (list Color)) : state :=
  register_groups 0 color_lists_rgb initial.

End Registry.

(** Reference notions used to state ownership. *)

(** Index of the first group that contains [c], counting from [i]. *)
Fixpoint first_group_from (i : nat) (c : Color) (groups : list (list Color))
    : option nat :=
  match groups with
  | [] => None
  | g :: rest =>
      if decide (c ∈ g) then Some i else first_group_from (S i) c rest
  end.

Definition first_group (c : Color) (groups : list (list Color)) : option nat :=
  first_group_from 0 c groups.

(** Position of the last occurrence of [c] in [g]. *)
Fixpoint last_index (c : Color) (g : list Color) : option nat :=
  match g with
  | [] => None
  | x :: rest =>
      match last_index c rest with
      | Some j => Some (S j)
      | None => if decide (x = c) then Some 0%nat else None
      end
  end.

(** The occurrences, in scan order, that have an earlier occurrence. *)
Fixpoint repeats (seen : gset Color) (l : list Color) : list Color :=
  match l with
  | [] => []
  | x :: rest =>
      (if decide (x ∈ seen) then [x] else []) ++ repeats ({[x]} ∪ seen) rest
  end.

(** ** Stage 5: number of frames (lines 25-27 and 141-146) *)

Definition calculate_lcm (a b : Z) : Z :=
  if decide (a ≠ 0 ∧ b ≠ 0) then Z.abs (a * b) `div` Z.gcd a b else 0.

Definition len {A} (l : list A) : Z := Z.of_nat (length l).

(** [range(1, len(color_lists_rgb))] visits exactly the groups after the
    first one, in order. *)
Definition num_frames (color_lists_rgb : list (list Color)) : Z :=
  match color_lists_rgb with
  | [] => 1
  | first :: _ =>
      foldl (λ n color_list, calculate_lcm n (len color_list))
            (len first) (drop 1 color_lists_rgb)
  end.

(** The spec's [CycleLength], read off its words: the pairwise reduction
    of the group lengths with [lcm(a,b) = |a*b| / gcd(a,b)] (0 when an
    operand is 0), and 1 for no group. *)
Definition spec_lcm (a b : Z) : Z :=
  if bool_decide (a = 0) || bool_decide (b = 0) then 0
  else Z.abs (a * b) `div` Z.gcd a b.

Definition CycleLength (lengths : list Z) : Z :=
  match lengths with
  | [] => 1
  | a :: rest => foldl spec_lcm a rest
  end.

(** ** Stage 6a: the substitution table of one frame (lines 158-165) *)

(** Python list subscripting with an integer: negative indices count
    from the end, anything out of range raises [IndexError] ([None]). *)
Definition py_index {A} (l : list A) (z : Z) : option A :=
  if decide (0 ≤ z) then l !! Z.to_nat z
  else if decide (0 ≤ len l + z) then l !! Z.to_nat (len l + z)
  else None.

(** Python [%] on integers: the result has the sign of the divisor, and
    a zero divisor raises [ZeroDivisionError] ([None]). *)
Definition py_mod (a b : Z) : option Z :=
  if decide (b = 0) then None else Some (a `mod` b).

(** [for i, x in enumerate(l)] with a body that may raise. *)
Fixpoint for_enumerate {A St} (body : nat → A → St → option St)
    (i : nat) (l : list A) (s : St) : option St :=
  match l with
  | [] => Some s
  | x :: rest => s' ← body i x s; for_enumerate body (S i) rest s'
  end.

Module FrameMap.
Section build.
Variable color_list_map : gmap Color nat.
Variable frame_index : Z.

(** Lines 163-165. *)
Definition map_color (list_index : nat) (color_list : list Color)
  (i : nat) (original_color : Color) (current_frame_map : gmap Color Color)
  : option (gmap Color Color) :=
if decide (color_list_map !! original_color = Some list_index) then
  new_color_index ← py_mod (Z.of_nat i + frame_index) (len color_list);
  new_color ← py_index color_list new_color_index;
  Some (<[original_color := new_color]> current_frame_map)
else Some current_frame_map.

(** Lines 160-165. *)
Definition map_group (list_index : nat) (color_list : list Color)
  (current_frame_map : gmap Color Color) : option (gmap Color Color) :=
for_enumerate (map_color list_index color_list) 0 color_list current_frame_map.

(** Lines 158-165. *)
Definition build (color_lists_rgb : list (list Color))
  : option (gmap Color Color) :=
for_enumerate map_group 0 color_lists_rgb ∅.
End build.
End FrameMap.

(** ** Stage 6b: pixel buffers and rendering (lines 139, 151-179) *)

(** Mutable Python lists of pixels are objects in a store; a computation
    threads the store and may raise. *)
Module Store.

Definition loc := nat.
Abbreviation store := (gmap loc (list Color)).

Definition M (A : Type) : Type := store → option (A * store).

Definition ret {A} (a : A) : M A := λ σ, Some (a, σ).

Definition bind {A B} (m : M A) (k : A → M B) : M B :=
  λ σ, match m σ with
       | Some (a, σ') => k a σ'
       | None => None
       end.

Definition lift {A} (o : option A) : M A :=
  λ σ, match o with Some a => Some (a, σ) | None => None end.

(** [list(xs)] for a sequence value: a new list object. *)
Definition new_list (data : list Color) : M loc :=
  λ σ, let l := fresh (dom σ) in Some (l, <[l := data]> σ).

(** [len(xs)]. *)
Definition list_len (l : loc) : M nat :=
  λ σ, data ← σ !! l; Some (length data, σ).

(** [xs[i]] for [i] from a [range]. *)
Definition get_item (l : loc) (i : nat) : M Color :=
  λ σ, data ← σ !! l; x ← data !! i; Some (x, σ).

(** [xs[i] = v]: in place; out of range raises. *)
Definition set_item (l : loc) (i : nat) (v : Color) : M unit :=
  λ σ, data ← σ !! l;
       if decide (i < length data)%nat
       then Some ((), <[l := <[i := v]> data]> σ)
       else None.

(** The current contents of a list object, as a value. *)
Definition contents (l : loc) : M (list Color) :=
  λ σ, data ← σ !! l; Some (data, σ).

(** [list(xs)] for a list object: a new object with the same items. *)
Definition copy_list (l : loc) : M loc :=
  bind (contents l) new_list.

End Store.

Notation "x ←ₛ m ; k" := (Store.bind m (λ x, k))
  (at level 20, m at level 100, k at level 200, only parsing).
Notation "m ;;ₛ k" := (Store.bind m (λ _, k))
  (at level 100, k at level 200, right associativity, only parsing).

(** [for x in xs] over a sequence value, with a body acting on the store. *)
Fixpoint for_each {A} (body : A → Store.M unit) (l : list A) : Store.M unit :=
  match l with
  | [] => Store.ret ()
  | x :: rest => body x ;;ₛ for_each body rest
  end.

(** [range(n)] for a Python integer [n]. *)
Definition range (n : Z) : list Z := Z.of_nat <$> seq 0 (Z.to_nat n).

Module Render.
Import Store.

(** Lines 170-173. *)
Definition rewrite_pixel (current_frame_map : gmap Color Color)
    (new_pixel_data : loc) (i : nat) : M unit :=
  original_pixel ←ₛ get_item new_pixel_data i;
  match current_frame_map !! original_pixel with
  | Some new_color => set_item new_pixel_data i new_color
  | None => ret ()
  end.

(** Lines 169-173. *)
Definition apply_map (current_frame_map : gmap Color Color)
    (new_pixel_data : loc) : M unit :=
  n ←ₛ list_len new_pixel_data;
  for_each (rewrite_pixel current_frame_map new_pixel_data) (seq 0 n).

(** A frame image: [Image.new] followed by [putdata], which stores the
    items of the list in the image. *)
Abbreviation frame := (list Color).

(** One iteration of the frame loop (lines 154-179), returning the
    image that is appended to [frames]. *)
Definition generate_frame (color_list_map : gmap Color nat)
    (color_lists_rgb : list (list Color)) (base_pixels : loc)
    (frame_index : Z) : M frame :=
  new_pixel_data ←ₛ copy_list base_pixels;
  current_frame_map ←ₛ
    lift (FrameMap.build color_list_map frame_index color_lists_rgb);
  apply_map current_frame_map new_pixel_data ;;ₛ
  contents new_pixel_data.

(** [for frame_index in range(num_frames)], appending to [frames]. *)
Fixpoint frame_loop (color_list_map : gmap Color nat)
    (color_lists_rgb : list (list Color)) (base_pixels : loc)
    (indices : list Z) (frames : list frame) : M (list frame) :=
  match indices with
  | [] => ret frames
  | frame_index :: rest =>
      frame_image ←ₛ
        generate_frame color_list_map color_lists_rgb base_pixels frame_index;
      frame_loop color_list_map color_lists_rgb base_pixels rest
                 (frames ++ [frame_image])
  end.

(** Stages 3, 4 (the pixel list of line 139), 5 and 6 of [main], for
    the converted colour groups and the decoded image data. *)
Definition run (color_lists_rgb : list (list Color)) (image_data : list Color)
    : M (loc * list frame) :=
  let registry := Registry.build color_lists_rgb in
  base_pixels ←ₛ new_list image_data;
  let num_frames := num_frames color_lists_rgb in
  frames ←ₛ
    frame_loop (Registry.color_list_map registry) color_lists_rgb
               base_pixels (range num_frames) [];
  ret (base_pixels, frames).

End Render.

(** The renderer's rule on one pixel, as the spec words it: the table's
    value when the colour is a key, the pixel itself otherwise. *)
Definition substitute (table : gmap Color Color) (p : Color) : Color :=
  default p (table !! p).

(** Rotation of a group: the colour found [frame_index] places after
    position [i], wrapping around. *)
Definition rotated (frame_index : Z) (g : list Color) (i : nat) : option Color :=
  g !! Z.to_nat ((Z.of_nat i + frame_index) `mod` len g).

(** The entry of [c] in the table of a frame, stated directly: the
    rotation, inside the registered owner, of the last place of [c]. *)
Definition entry (color_list_map : gmap Color nat) (frame_index : Z)
    (groups : list (list Color)) (c : Color) : option Color :=
  owner ← color_list_map !! c;
  g ← groups !! owner;
  j ← last_index c g;
  rotated frame_index g j.

(** What the image of frame [frame_index] must be for the pixels
    [pixels]: the substitution by that frame's table, pixel by pixel. *)
Definition renders (color_list_map : gmap Color nat)
    (color_lists_rgb : list (list Color)) (pixels : list Color)
    (frame_index : Z) (frame_image : Render.frame) : Prop :=
  ∃ table,
    FrameMap.build color_list_map frame_index color_lists_rgb = Some table ∧
    frame_image = substitute table <$> pixels.

(** Sample colours. *)
Definition red : Color := (255, 0, 0).
Definition green : Color := (0, 255, 0).
Definition blue : Color := (0, 0, 255).
Definition grey : Color := (128, 128, 128).

(** ** Stage 2: reading the colour lists (lines 11-23 and 29-70) *)

(** Python text, for characters with code points below 256. *)
Abbreviation str := (list ascii).

Module Text.

Definition code (c : ascii) : N := N_of_ascii c.

(** [str.isspace] of one character: the ASCII controls 9-13 and 28-31,
    the space, and the Latin-1 characters 133 and 160. *)
Definition is_space (c : ascii) : bool :=
  ((9 <=? code c) && (code c <=? 13) || (28 <=? code c) && (code c <=? 32)
   || (code c =? 133) || (code c =? 160))%N.

(** [s.lstrip(chars)], with the set of characters as a predicate. *)
Fixpoint lstrip_chars (p : ascii → bool) (s : str) : str :=
  match s with
  | [] => []
  | c :: rest => if p c then lstrip_chars p rest else s
  end.

(** [s.rstrip(chars)]. *)
Definition rstrip_chars (p : ascii → bool) (s : str) : str :=
  reverse (lstrip_chars p (reverse s)).

(** [s.strip()]. *)
Definition strip (s : str) : str :=
  rstrip_chars is_space (lstrip_chars is_space s).

(** [s.split(sep)] for a one-character separator: always at least one
    field, empty fields are kept. *)
Fixpoint split_on (sep : ascii) (s : str) : list str :=
  match s with
  | [] => [[]]
  | c :: rest =>
      if decide (c = sep) then [] :: split_on sep rest
      else match split_on sep rest with
           | field :: fields => (c :: field) :: fields
           | [] => [[c]]
           end
  end.

(** The character class [[a-fA-F0-9]]. *)
Definition is_hex_digit (c : ascii) : bool :=
  ((48 <=? code c) && (code c <=? 57) || (65 <=? code c) && (code c <=? 70)
   || (97 <=? code c) && (code c <=? 102))%N.

(** The value of a hexadecimal digit. *)
Definition hex_value (c : ascii) : Z :=
  if (code c <=? 57)%N then Z.of_N (code c) - 48
  else if (code c <=? 70)%N then Z.of_N (code c) - 55
  else Z.of_N (code c) - 87.

End Text.

(** [re.match(r'^#?([a-fA-F0-9]{6})$', s)], as the truth value of its
    result: an optional [#], six hexadecimal digits, then the end of the
    text or one newline before the end. *)
Definition hex_color_re (s : str) : bool :=
  let body :=
    match s with
    | c :: rest => if decide (c = "#"%char) then rest else s
    | [] => s
    end in
  forallb Text.is_hex_digit (take 6 body)
  && bool_decide (length (take 6 body) = 6%nat)
  && (bool_decide (drop 6 body = [])
      || bool_decide (drop 6 body = ["010"%char])).

(** Lines 21-23. *)
Definition validate_hex_color (color_str : str) : bool :=
  hex_color_re (Text.strip color_str).

(** What [hex_to_rgb] raises, with the text its message quotes. *)
Inductive value_error :=
| InvalidFormat (hex_color : str)
| InvalidCharacters (hex_color : str).

Inductive result (A : Type) :=
| Ok (a : A)
| Raise (e : value_error).
Arguments Ok {A} a.
Arguments Raise {A} e.

Section hex_to_rgb.
(** [int(s, 16)] on a piece of text; [None] is its [ValueError]. *)
Variable py_int16 : str → option Z.

(** Lines 11-19. *)
Definition hex_to_rgb (hex_color : str) : result Color :=
  let hex_color := Text.lstrip_chars (λ c, bool_decide (c = "#"%char)) hex_color in
  if decide (length hex_color ≠ 6%nat) then Raise (InvalidFormat hex_color)
  else
    match py_int16 (take 2 (drop 0 hex_color)),
          py_int16 (take 2 (drop 2 hex_color)),
          py_int16 (take 2 (drop 4 hex_color)) with
    | Some r, Some g, Some b => Ok (r, g, b)
    | _, _, _ => Raise (InvalidCharacters hex_color)
    end.

(** Line 107: the list comprehension, left to right. *)
Fixpoint convert_list (hex_list : list str) : result (list Color) :=
  match hex_list with
  | [] => Ok []
  | c :: rest =>
      match hex_to_rgb c with
      | Raise e => Raise e
      | Ok color_rgb =>
          match convert_list rest with
          | Raise e => Raise e
          | Ok rgb_list => Ok (color_rgb :: rgb_list)
          end
      end
  end.

(** Lines 106-117 with the conversion: the groups converted so far and
    the registry state, or the [ValueError] that line 118 catches. *)
Fixpoint convert_and_register (i : nat) (color_lists_hex : list (list str))
    (color_lists_rgb : list (list Color)) (st : Registry.state)
    : result (list (list Color) * Registry.state) :=
  match color_lists_hex with
  | [] => Ok (color_lists_rgb, st)
  | hex_list :: rest =>
      match convert_list hex_list with
      | Raise e => Raise e
      | Ok rgb_list =>
          convert_and_register (S i) rest (color_lists_rgb ++ [rgb_list])
                               (Registry.register_group i st rgb_list)
      end
  end.
End hex_to_rgb.

(** The hexadecimal digit of a number below 16, in lower case. *)
Definition hex_digit_char (d : N) : ascii :=
  ascii_of_N (if (d <? 10)%N then 48 + d else 87 + d).

(** The lower-case hexadecimal digits of [n], most significant first;
    [fuel] bounds the number of digits. *)
Fixpoint hex_digits (fuel : nat) (n : N) (acc : str) : str :=
  match fuel with
  | O => acc
  | S fuel' =>
      let acc' := hex_digit_char (n mod 16) :: acc in
      if (n / 16 =? 0)%N then acc' else hex_digits fuel' (n / 16) acc'
  end.

(** [f'{n:02x}']: the sign counts in the width of 2. *)
Definition format_02x (n : Z) : str :=
  let magnitude := Z.to_N (Z.abs n) in
  let digits := hex_digits (S (N.to_nat (N.log2 magnitude))) magnitude [] in
  if decide (n < 0) then "-"%char :: digits
  else if decide (length digits < 2)%nat then "0"%char :: digits
  else digits.

(** [f'#{r:02x}{g:02x}{b:02x}'] of lines 108 and 112. *)
Definition format_color (color_rgb : Color) : str :=
  let '(r, g, b) := color_rgb in
  "#"%char :: format_02x r ++ format_02x g ++ format_02x b.

(** What [get_color_lists_from_user] prints, in order: the prompt of
    each [input] call with its list number, and the messages of lines
    41, 51-52, 57 and 64. *)
Inductive event :=
| Prompt (list_num : nat)
| NoListError
| InvalidFormatError (invalid_colors : list str)
| TooFewColorsError
| InputCancelled.

(** A call either returns or leaves through [sys.exit]. *)
Inductive outcome (A : Type) :=
| Returned (a : A)
| Exited (status : Z).
Arguments Returned {A} a.
Arguments Exited {A} status.

Record reading := Reading {
  result_of : outcome (list (list str));
  printed : list event;
  unread : list str
}.

(** Line 46. *)
Definition colors_of_line (user_input : str) : list str :=
  filter (λ c, c ≠ []) (Text.strip <$> Text.split_on ","%char user_input).

(** Line 49. *)
Definition invalid_colors_of (colors_hex : list str) : list str :=
  filter (λ c, validate_hex_color c = false) colors_hex.

(** The [while True] loop of lines 33-68 over the lines that [input]
    will deliver; running out of lines is [EOFError]. *)
Fixpoint input_loop (stdin : list str) (color_lists_hex : list (list str))
    (list_num : nat) (out : list event) : reading :=
  match stdin with
  | [] =>
      let out := out ++ [Prompt list_num; InputCancelled] in
      if decide (color_lists_hex = []) then Reading (Exited 1) out []
      else Reading (Returned color_lists_hex) out []
  | line :: rest =>
      let out := out ++ [Prompt list_num] in
      let user_input := Text.strip line in
      if decide (user_input = []) then
        if decide (color_lists_hex = [])
        then input_loop rest color_lists_hex list_num (out ++ [NoListError])
        else Reading (Returned color_lists_hex) out rest
      else
        let colors_hex := colors_of_line user_input in
        let invalid_colors := invalid_colors_of colors_hex in
        if decide (invalid_colors ≠ []) then
          input_loop rest color_lists_hex list_num
                     (out ++ [InvalidFormatError invalid_colors])
        else if decide (length colors_hex < 2)%nat then
          input_loop rest color_lists_hex list_num (out ++ [TooFewColorsError])
        else
          input_loop rest (color_lists_hex ++ [colors_hex]) (S list_num) out
  end.

(** Lines 29-70. *)
Definition get_color_lists_from_user (stdin : list str) : reading :=
  input_loop stdin [] 1 [].

(** Stages 2, 3, 5 and 6 of [main] for the lines typed by the user and
    the decoded image data: the frames handed to stage 7, or the exit. *)
Definition main_frames (py_int16 : str → option Z) (stdin : list str)
    (image_data : list Color) (σ : gmap Store.loc (list Color))
    : outcome (list Render.frame) :=
  match result_of (get_color_lists_from_user stdin) with
  | Exited status => Exited status
  | Returned color_lists_hex =>
      if decide (color_lists_hex = []) then Exited 1
      else
        match convert_and_register py_int16 0 color_lists_hex []
                                   Registry.initial with
        | Raise _ => Exited 1
        | Ok (color_lists_rgb, _) =>
            match Render.run color_lists_rgb image_data σ with
            | Some (_, frames, _) => Returned frames
            | None => Exited 1
            end
        end
  end.

(** [int(s, 16)] on two hexadecimal digits; any other text is refused
    here.  An instance for [py_int16] in examples. *)
Definition hex_pair_int (s : str) : option Z :=
  match s with
  | [a; b] =>
      if Text.is_hex_digit a && Text.is_hex_digit b
      then Some (16 * Text.hex_value a + Text.hex_value b)
      else None
  | _ => None
  end.

(** What [int(s, 16)] is assumed to do: read two hexadecimal digits. *)
Definition reads_hex_pairs (py_int16 : str → option Z) : Prop :=
  ∀ a b, Text.is_hex_digit a = true → Text.is_hex_digit b = true →
    py_int16 [a; b] = Some (16 * Text.hex_value a + Text.hex_value b).

(** Text literals. *)
Definition text (s : string) : str := String.list_ascii_of_string s.

(** The colour list that one typed line adds (lines 38-60), or [None]
    for a line that adds none: a blank line, a line with an invalid
    colour, a line with fewer than two colours. *)
Definition line_colors (line : str) : option (list str) :=
  let user_input := Text.strip line in
  let colors_hex := colors_of_line user_input in
  if decide (user_input = []) then None
  else if decide (invalid_colors_of colors_hex ≠ []) then None
  else if decide (length colors_hex < 2)%nat then None
  else Some colors_hex.

(** A colour text as the input stage passes it on. *)
Definition clean_color (c : str) : Prop :=
  validate_hex_color c = true ∧ c ≠ [] ∧ Text.strip c = c.

(** A colour whose channels fit in eight bits. *)
Definition byte_color (color_rgb : Color) : Prop :=
  let '(r, g, b) := color_rgb in
  0 ≤ r ≤ 255 ∧ 0 ≤ g ≤ 255 ∧ 0 ≤ b ≤ 255.

(** * Properties of the registry *)

Section registry_facts.
Import Registry.

Lemma register_group_targets i g st :
  all_target_colors_rgb (register_group i st g)
  = list_to_set g ∪ all_target_colors_rgb st.
Proof.
  unfold register_group. revert st.
  induction g as [|x g IH]; intros st; simpl.
  - set_solver.
  - rewrite IH. unfold register_color.
    destruct (decide (x ∈ all_target_colors_rgb st)); simpl; set_solver.
Qed.

Lemma register_group_lookup i g st c :
  color_list_map (register_group i st g) !! c
  = if decide (c ∈ all_target_colors_rgb st) then color_list_map st !! c
    else if decide (c ∈ g) then Some i
    else color_list_map st !! c.
Proof.
  unfold register_group. revert st.
  induction g as [|x g IH]; intros st; simpl.
  - repeat case_decide; first [done | set_solver].
  - rewrite IH. unfold register_color.
    destruct (decide (x ∈ all_target_colors_rgb st)) as [Hx|Hx]; simpl.
    + repeat case_decide; first [done | set_solver].
    + destruct (decide (c = x)) as [->|Hne].
      * rewrite lookup_insert_eq.
        repeat case_decide; first [done | set_solver].
      * rewrite lookup_insert_ne by done.
        repeat case_decide; first [done | set_solver].
Qed.

Lemma register_group_warnings i g st :
  warnings (register_group i st g)
  = warnings st ++ repeats (all_target_colors_rgb st) g.
Proof.
  unfold register_group. revert st.
  induction g as [|x g IH]; intros st; simpl.
  - by rewrite app_nil_r.
  - rewrite IH. unfold register_color.
    destruct (decide (x ∈ all_target_colors_rgb st)); simpl.
    + by rewrite <- app_assoc.
    + done.
Qed.

Lemma repeats_app seen l1 l2 :
  repeats seen (l1 ++ l2)
  = repeats seen l1 ++ repeats (list_to_set l1 ∪ seen) l2.
Proof.
  revert seen. induction l1 as [|x l1 IH]; intros seen; simpl.
  - f_equal. set_solver.
  - rewrite IH, <- app_assoc. do 3 f_equal. set_solver.
Qed.

Lemma register_groups_targets groups : ∀ i st,
  all_target_colors_rgb (register_groups i groups st)
  = list_to_set (concat groups) ∪ all_target_colors_rgb st.
Proof.
  induction groups as [|g groups IH]; intros i st; simpl.
  - set_solver.
  - rewrite IH, register_group_targets, list_to_set_app_L. set_solver.
Qed.

Lemma register_groups_warnings groups : ∀ i st,
  warnings (register_groups i groups st)
  = warnings st ++ repeats (all_target_colors_rgb st) (concat groups).
Proof.
  induction groups as [|g groups IH]; intros i st; simpl.
  - by rewrite app_nil_r.
  - rewrite IH, register_group_targets, register_group_warnings.
    by rewrite repeats_app, <- app_assoc.
Qed.

Lemma register_groups_lookup groups c : ∀ i st,
  color_list_map (register_groups i groups st) !! c
  = if decide (c ∈ all_target_colors_rgb st) then color_list_map st !! c
    else match first_group_from i c groups with
         | Some j => Some j
         | None => color_list_map st !! c
         end.
Proof.
  induction groups as [|g groups IH]; intros i st; simpl.
  - by case_decide.
  - rewrite IH, register_group_targets, !register_group_lookup.
    destruct (decide (c ∈ g)) as [Hg|Hg].
    + repeat case_decide; first [done | set_solver].
    + repeat case_decide; first [done | set_solver].
Qed.

Lemma build_lookup groups c :
  color_list_map (build groups) !! c = first_group c groups.
Proof.
  unfold build, first_group. rewrite register_groups_lookup. simpl.
  rewrite decide_False by set_solver.
  by destruct (first_group_from 0 c groups).
Qed.

End registry_facts.

Lemma first_group_from_spec c groups : ∀ i j,
  first_group_from i c groups = Some j ↔
  (i ≤ j)%nat ∧ ∃ g, groups !! (j - i)%nat = Some g ∧ c ∈ g ∧
    ∀ j' g', (j' < j - i)%nat → groups !! j' = Some g' → c ∉ g'.
Proof.
  induction groups as [|g groups IH]; intros i j; simpl.
  - split; [done | by intros (_ & g & ? & _)].
  - destruct (decide (c ∈ g)) as [Hg|Hg].
    + split.
      * intros [= <-]. split; [lia|]. exists g.
        replace (i - i)%nat with 0%nat by lia. split_and!; [done..|lia].
      * intros (Hij & g' & Hl & Hc & Hmin).
        destruct (decide (j = i)) as [->|Hne]; [done|]. exfalso.
        apply (Hmin 0%nat g); [lia|done..].
    + rewrite IH. split.
      * intros (Hij & g' & Hl & Hc & Hmin). split; [lia|]. exists g'.
        replace (j - i)%nat with (S (j - S i)) by lia. split_and!; [done..|].
        intros [|j'] g'' Hlt Hl'; simpl in Hl'; [by simplify_eq|].
        apply (Hmin j'); [lia|done].
      * intros (Hij & g' & Hl & Hc & Hmin).
        destruct (decide (j = i)) as [->|Hne].
        { replace (i - i)%nat with 0%nat in Hl by lia. by simplify_eq/=. }
        replace (j - i)%nat with (S (j - S i)) in * by lia. simpl in Hl.
        split; [lia|]. exists g'. split_and!; [done..|].
        intros j' g'' Hlt Hl'. apply (Hmin (S j')); [lia|done].
Qed.

Lemma first_group_spec c groups j :
  first_group c groups = Some j ↔
  ∃ g, groups !! j = Some g ∧ c ∈ g ∧
    ∀ j' g', (j' < j)%nat → groups !! j' = Some g' → c ∉ g'.
Proof.
  unfold first_group. rewrite first_group_from_spec.
  replace (j - 0)%nat with j by lia. split; [by intros [_ ?]|].
  intros ?. split; [lia|done].
Qed.

Lemma first_group_None c groups :
  first_group c groups = None ↔ ∀ g, g ∈ groups → c ∉ g.
Proof.
  unfold first_group. generalize 0%nat.
  induction groups as [|g groups IH]; intros i; simpl.
  - split; [|done]. intros _ g Hg. by apply elem_of_nil in Hg.
  - destruct (decide (c ∈ g)) as [Hg|Hg].
    + split; [done|]. intros H. exfalso. apply (H g); [left|done].
    + rewrite IH. split.
      * intros H g' [->|Hin]%elem_of_cons; auto.
      * intros H g' Hin. apply H. by right.
Qed.

(** * Properties of the frame count *)

Lemma calculate_lcm_lcm a b : calculate_lcm a b = Z.lcm a b.
Proof.
  unfold calculate_lcm. case_decide as H.
  - destruct H as [Ha Hb].
    destruct (Z.gcd_divide_r a b) as [q Hq].
    assert (Z.gcd a b ≠ 0) as Hg by (rewrite Z.gcd_eq_0; tauto).
    pose proof (Z.gcd_nonneg a b) as Hg0.
    unfold Z.lcm. remember (Z.gcd a b) as g eqn:Eg. clear Eg. subst b.
    rewrite Z.div_mul by done.
    rewrite Z.mul_assoc, Z.abs_mul, (Z.abs_eq g) by done.
    by rewrite Z.div_mul.
  - symmetry. apply Z.lcm_eq_0.
    destruct (decide (a = 0)); [by left|].
    destruct (decide (b = 0)); [by right|]. tauto.
Qed.

Lemma calculate_lcm_spec_lcm a b : calculate_lcm a b = spec_lcm a b.
Proof.
  unfold calculate_lcm, spec_lcm.
  destruct (decide (a = 0)) as [->|Ha]; [done|].
  destruct (decide (b = 0)) as [->|Hb].
  - rewrite decide_False by tauto.
    rewrite (bool_decide_eq_true_2 (0 = 0)) by done. by rewrite orb_true_r.
  - rewrite decide_True by done.
    by rewrite !bool_decide_eq_false_2.
Qed.

Section fold_lcm.
Abbreviation step := (λ (n : Z) (color_list : list Color),
                    calculate_lcm n (len color_list)).

Lemma fold_lcm_divides_acc groups : ∀ n, (n | foldl step n groups).
Proof.
  induction groups as [|g groups IH]; intros n; simpl; [done|].
  etrans; [|apply IH]. rewrite calculate_lcm_lcm. apply Z.divide_lcm_l.
Qed.

Lemma fold_lcm_divides_elem groups g : ∀ n,
  g ∈ groups → (len g | foldl step n groups).
Proof.
  induction groups as [|g' groups IH]; intros n Hin; simpl.
  - by apply elem_of_nil in Hin.
  - apply elem_of_cons in Hin as [->|Hin]; [|by apply IH].
    etrans; [|apply fold_lcm_divides_acc].
    rewrite calculate_lcm_lcm. apply Z.divide_lcm_r.
Qed.

Lemma fold_lcm_least groups m : ∀ n,
  (n | m) → (∀ g, g ∈ groups → (len g | m)) → (foldl step n groups | m).
Proof.
  induction groups as [|g groups IH]; intros n Hn Hall; simpl; [done|].
  apply IH.
  - rewrite calculate_lcm_lcm. apply Z.lcm_least; [done|].
    apply Hall. by left.
  - intros g' Hg'. apply Hall. by right.
Qed.

Lemma fold_lcm_nonneg groups : ∀ n, 0 ≤ n → 0 ≤ foldl step n groups.
Proof.
  induction groups as [|g groups IH]; intros n Hn; simpl; [done|].
  apply IH. rewrite calculate_lcm_lcm. apply Z.lcm_nonneg.
Qed.

Lemma fold_lcm_spec groups : ∀ n,
  foldl step n groups = foldl spec_lcm n (len <$> groups).
Proof.
  induction groups as [|g groups IH]; intros n; simpl; [done|].
  by rewrite IH, calculate_lcm_spec_lcm.
Qed.
End fold_lcm.

Lemma num_frames_divides groups g :
  g ∈ groups → (len g | num_frames groups).
Proof.
  destruct groups as [|g0 groups]; simpl.
  - intros Hin. by apply elem_of_nil in Hin.
  - intros [->|Hin]%elem_of_cons.
    + apply fold_lcm_divides_acc.
    + by apply fold_lcm_divides_elem.
Qed.

Lemma num_frames_least groups m :
  (∀ g, g ∈ groups → (len g | m)) → (num_frames groups | m).
Proof.
  destruct groups as [|g0 groups]; simpl; intros Hall.
  - apply Z.divide_1_l.
  - apply fold_lcm_least.
    + apply Hall. by left.
    + intros g Hg. apply Hall. by right.
Qed.

Lemma num_frames_nonneg groups : 0 ≤ num_frames groups.
Proof.
  destruct groups as [|g0 groups]; simpl; [lia|].
  apply fold_lcm_nonneg. unfold len. lia.
Qed.

Lemma num_frames_pos groups :
  Forall (λ g, (1 ≤ length g)%nat) groups → 0 < num_frames groups.
Proof.
  intros Hall.
  pose proof (num_frames_nonneg groups) as Hnn.
  destruct (decide (num_frames groups = 0)) as [Hz|]; [|lia]. exfalso.
  destruct groups as [|g0 groups]; [done|].
  simpl in Hz. clear Hnn.
  apply Forall_cons in Hall as [Hg0 Hall].
  assert (len g0 ≠ 0) as Hn by (unfold len; lia).
  revert Hn Hz. generalize (len g0). clear Hg0.
  induction Hall as [|g groups Hg Hall IH]; intros n Hn; simpl; [done|].
  apply IH. rewrite calculate_lcm_lcm, Z.lcm_eq_0. unfold len. lia.
Qed.

(** * Properties of the substitution table *)

Lemma last_index_lookup c g i : last_index c g = Some i → g !! i = Some c.
Proof.
  revert i. induction g as [|x g IH]; intros i; simpl; [done|].
  destruct (last_index c g) as [j|].
  - intros [= <-]. by apply IH.
  - case_decide; [|done]. by intros [= <-]; subst.
Qed.

Lemma last_index_last c g i j :
  last_index c g = Some i → (i < j)%nat → g !! j ≠ Some c.
Proof.
  revert i j. induction g as [|x g IH]; intros i j; simpl; [done|].
  destruct (last_index c g) as [i'|] eqn:E.
  - intros [= <-] Hlt. destruct j as [|j]; [lia|]. simpl.
    apply (IH i'); [done|lia].
  - case_decide; [|done]. intros [= <-] Hlt.
    destruct j as [|j]; [lia|]. simpl. intros Hj.
    assert (is_Some (last_index c g)) as [? ?]; [|congruence].
    clear -Hj. revert j Hj.
    induction g as [|y g IH]; intros j Hj; [done|]. simpl.
    destruct j as [|j]; simpl in Hj.
    + simplify_eq. destruct (last_index c g); [by eexists|].
      rewrite decide_True by done. by eexists.
    + destruct (IH j Hj) as [k ->]. by eexists.
Qed.

Lemma last_index_is_Some c g : c ∈ g ↔ is_Some (last_index c g).
Proof.
  split.
  - intros [j Hj]%list_elem_of_lookup.
    destruct (last_index c g) as [i|] eqn:E; [by eexists|]. exfalso.
    revert j Hj E. induction g as [|y g IH]; intros j Hj; [done|]. simpl.
    destruct (last_index c g) eqn:E'; [done|].
    destruct j as [|j]; simpl in Hj.
    + simplify_eq. by rewrite decide_True.
    + intros _. by apply (IH j).
  - intros [i Hi]. apply list_elem_of_lookup. exists i.
    by apply last_index_lookup.
Qed.

Lemma last_index_unique c g i :
  g !! i = Some c → (∀ j, (i < j)%nat → g !! j ≠ Some c) →
  last_index c g = Some i.
Proof.
  intros Hi Hlast.
  assert (is_Some (last_index c g)) as [i' Hi'].
  { apply last_index_is_Some, list_elem_of_lookup. by exists i. }
  rewrite Hi'. f_equal.
  destruct (Nat.lt_trichotomy i i') as [Hlt|[->|Hlt]]; [|done|].
  - exfalso. apply (Hlast i' Hlt). by apply last_index_lookup.
  - exfalso. by apply (last_index_last _ _ _ _ Hi' Hlt).
Qed.

Lemma rotated_is_Some k g i : g ≠ [] → is_Some (rotated k g i).
Proof.
  intros Hg. unfold rotated. apply lookup_lt_is_Some.
  assert (0 < len g) as Hpos.
  { unfold len. destruct g; [done|]. simpl. lia. }
  pose proof (Z.mod_pos_bound (Z.of_nat i + k) (len g) Hpos).
  unfold len in *. lia.
Qed.

Lemma rotated_0 g i c : g !! i = Some c → rotated 0 g i = Some c.
Proof.
  intros Hi. unfold rotated.
  pose proof (lookup_lt_Some _ _ _ Hi) as Hlt.
  rewrite Z.add_0_r, Z.mod_small by (unfold len; lia).
  by rewrite Nat2Z.id.
Qed.

Lemma rotated_period k n g i :
  (len g | n) → rotated (k + n) g i = rotated k g i.
Proof.
  intros [q ->]. unfold rotated.
  destruct (decide (len g = 0)) as [Hz|Hnz].
  - rewrite Hz, Z.mul_0_r, Z.add_0_r. done.
  - by rewrite Z.add_assoc, Z.mod_add.
Qed.

Section frame_map_facts.
Import FrameMap.
Variable color_list_map : gmap Color nat.
Variable frame_index : Z.

Lemma map_color_owner list_index color_list i original_color m :
  color_list_map !! original_color = Some list_index →
  color_list ≠ [] →
  ∃ new_color, rotated frame_index color_list i = Some new_color ∧
    map_color color_list_map frame_index list_index color_list
              i original_color m
    = Some (<[original_color := new_color]> m).
Proof.
  intros Hown Hne.
  destruct (rotated_is_Some frame_index color_list i Hne) as [v Hv].
  exists v. split; [done|].
  unfold map_color, py_mod, py_index. rewrite decide_True by done.
  assert (0 < len color_list) as Hpos.
  { unfold len. destruct color_list; [done|]. simpl. lia. }
  rewrite decide_False by lia. simpl.
  pose proof (Z.mod_pos_bound (Z.of_nat i + frame_index) _ Hpos).
  rewrite decide_True by lia.
  unfold rotated in Hv. by rewrite Hv.
Qed.

Lemma map_color_not_owner list_index color_list i original_color m :
  color_list_map !! original_color ≠ Some list_index →
  map_color color_list_map frame_index list_index color_list
            i original_color m
  = Some m.
Proof. intros Hown. unfold map_color. by rewrite decide_False. Qed.

(** The inner loop, started anywhere inside the group. *)
Lemma map_suffix list_index color_list suf : ∀ pre m,
  color_list = pre ++ suf →
  ∃ m', for_enumerate (map_color color_list_map frame_index
                                 list_index color_list)
                      (length pre) suf m = Some m' ∧
    ∀ c, m' !! c =
      if decide (color_list_map !! c = Some list_index) then
        match last_index c suf with
        | Some j => rotated frame_index color_list (length pre + j)
        | None => m !! c
        end
      else m !! c.
Proof.
  induction suf as [|x suf IH]; intros pre m Heq; simpl.
  - exists m. split; [done|]. intros c. by case_decide.
  - assert (color_list ≠ []) as Hne by (subst; by destruct pre).
    destruct (IH (pre ++ [x])) with (m := m) as (m0 & _ & _);
      [by rewrite <- app_assoc|].
    destruct (decide (color_list_map !! x = Some list_index)) as [Hx|Hx].
    + destruct (map_color_owner list_index color_list (length pre) x m Hx Hne)
        as (v & Hv & ->). simpl.
      destruct (IH (pre ++ [x]) (<[x := v]> m)) as (m' & Hm' & Hlook);
        [by rewrite <- app_assoc|].
      rewrite length_app, Nat.add_1_r in Hm'. simpl in Hm'.
      exists m'. split; [done|]. intros c. rewrite Hlook.
      rewrite length_app, Nat.add_1_r.
      case_decide as Hc; [|].
      * destruct (last_index c suf) as [j|].
        { f_equal. lia. }
        case_decide as Hxc.
        { subst c. rewrite lookup_insert_eq, Nat.add_0_r. done. }
        by rewrite lookup_insert_ne.
      * rewrite lookup_insert_ne; [done|]. by intros ->.
    + rewrite map_color_not_owner by done. simpl.
      destruct (IH (pre ++ [x]) m) as (m' & Hm' & Hlook);
        [by rewrite <- app_assoc|].
      rewrite length_app, Nat.add_1_r in Hm'. simpl in Hm'.
      exists m'. split; [done|]. intros c. rewrite Hlook.
      rewrite length_app, Nat.add_1_r.
      case_decide as Hc; [|done].
      destruct (last_index c suf) as [j|].
      { f_equal. lia. }
      case_decide as Hxc; [|done]. by subst c.
Qed.

Lemma map_group_lookup list_index color_list m :
  ∃ m', map_group color_list_map frame_index list_index color_list m
        = Some m' ∧
    ∀ c, m' !! c =
      if decide (color_list_map !! c = Some list_index) then
        match last_index c color_list with
        | Some j => rotated frame_index color_list j
        | None => m !! c
        end
      else m !! c.
Proof.
  destruct (map_suffix list_index color_list color_list [] m eq_refl)
    as (m' & Hm' & Hlook).
  exists m'. split; [done|]. intros c. by rewrite Hlook.
Qed.

Lemma map_groups_lookup groups : ∀ i m,
  ∃ m', for_enumerate (map_group color_list_map frame_index) i groups m
        = Some m' ∧
    ∀ c, m' !! c =
      match color_list_map !! c with
      | Some owner =>
          if decide (i ≤ owner)%nat then
            match groups !! (owner - i)%nat with
            | Some g =>
                match last_index c g with
                | Some j => rotated frame_index g j
                | None => m !! c
                end
            | None => m !! c
            end
          else m !! c
      | None => m !! c
      end.
Proof.
  induction groups as [|g groups IH]; intros i m; simpl.
  - exists m. split; [done|]. intros c.
    destruct (color_list_map !! c); [|done]. by case_decide.
  - destruct (map_group_lookup i g m) as (m1 & -> & Hlook1). simpl.
    destruct (IH (S i) m1) as (m' & Hm' & Hlook).
    exists m'. split; [done|]. intros c. rewrite Hlook, Hlook1.
    destruct (color_list_map !! c) as [owner|] eqn:Hown.
    + destruct (decide (owner = i)) as [->|Hne].
      * rewrite decide_False by lia. rewrite !decide_True by (done || lia).
        by replace (i - i)%nat with 0%nat by lia.
      * rewrite (decide_False (P := Some owner = Some i)) by congruence.
        destruct (decide (S i ≤ owner)%nat) as [Hle|Hle].
        { rewrite decide_True by lia.
          by replace (owner - i)%nat with (S (owner - S i)) by lia. }
        by rewrite decide_False by lia.
    + by rewrite decide_False.
Qed.

Lemma build_entry groups :
  ∃ table, build color_list_map frame_index groups = Some table ∧
    ∀ c, table !! c = entry color_list_map frame_index groups c.
Proof.
  destruct (map_groups_lookup groups 0 ∅) as (table & Htable & Hlook).
  exists table. split; [done|]. intros c. rewrite Hlook. unfold entry.
  destruct (color_list_map !! c) as [owner|]; [|done].
  destruct (decide (0 ≤ owner)%nat); [|lia]. rewrite Nat.sub_0_r. simpl.
  destruct (groups !! owner) as [g|]; simpl; [|done].
  by destruct (last_index c g).
Qed.

End frame_map_facts.

(** * Properties of the renderer *)

Section render_facts.
Import Store Render.

Lemma rewrite_pixel_step table l i (σ : store) data p :
  σ !! l = Some data → data !! i = Some p →
  rewrite_pixel table l i σ
  = Some ((), <[l := <[i := substitute table p]> data]> σ).
Proof.
  intros Hl Hi. unfold rewrite_pixel, bind, get_item, substitute.
  rewrite Hl. simpl. rewrite Hi. simpl.
  destruct (table !! p) as [v|]; simpl.
  - unfold set_item. rewrite Hl. simpl.
    rewrite decide_True by (by eapply lookup_lt_Some). done.
  - unfold ret. by rewrite list_insert_id, insert_id.
Qed.

(** The pixel loop over [range(i, i+n)]: positions inside the range
    are substituted, the others keep their value. *)
Lemma apply_loop table l n : ∀ i (σ : store) data,
  σ !! l = Some data → (i + n ≤ length data)%nat →
  ∃ data', for_each (rewrite_pixel table l) (seq i n) σ
           = Some ((), <[l := data']> σ) ∧
    length data' = length data ∧
    ∀ j, data' !! j =
      if decide (i ≤ j < i + n)%nat then substitute table <$> data !! j
      else data !! j.
Proof.
  induction n as [|n IH]; intros i σ data Hl Hlen; simpl.
  - exists data. unfold ret. rewrite insert_id by done.
    split_and!; [done..|]. intros j. rewrite decide_False by lia. done.
  - destruct (lookup_lt_is_Some_2 data i) as [p Hp]; [lia|].
    unfold bind at 1. rewrite (rewrite_pixel_step _ _ _ _ _ _ Hl Hp).
    set (data1 := <[i := substitute table p]> data).
    destruct (IH (S i) (<[l := data1]> σ) data1) as (data' & -> & Hlen' & Hlook).
    { by rewrite lookup_insert_eq. }
    { unfold data1. rewrite length_insert. lia. }
    exists data'. rewrite insert_insert_eq. split_and!; [done| |].
    { rewrite Hlen'. unfold data1. by rewrite length_insert. }
    intros j. rewrite Hlook. unfold data1.
    destruct (decide (j = i)) as [->|Hne].
    + rewrite decide_False by lia. rewrite decide_True by lia.
      rewrite list_lookup_insert_eq by lia. by rewrite Hp.
    + rewrite list_lookup_insert_ne by done.
      destruct (decide (S i ≤ j < S i + n)%nat).
      * by rewrite decide_True by lia.
      * by rewrite decide_False by lia.
Qed.

Lemma apply_map_spec table l (σ : store) data :
  σ !! l = Some data →
  apply_map table l σ = Some ((), <[l := substitute table <$> data]> σ).
Proof.
  intros Hl. unfold apply_map, bind at 1, list_len. rewrite Hl. simpl.
  destruct (apply_loop table l (length data) 0 σ data Hl)
    as (data' & -> & Hlen & Hlook); [lia|].
  do 3 f_equal. apply list_eq. intros j.
  rewrite Hlook, list_lookup_fmap.
  case_decide as Hj; [done|].
  rewrite (lookup_ge_None_2 data j) by lia. done.
Qed.

Section frames.
Variable color_list_map : gmap Color nat.
Variable color_lists_rgb : list (list Color).
Variable base_pixels : loc.
Variable pixels : list Color.

Abbreviation renders := (renders color_list_map color_lists_rgb pixels).

Lemma generate_frame_spec frame_index (σ : store) :
  σ !! base_pixels = Some pixels →
  ∃ frame_image,
    generate_frame color_list_map color_lists_rgb base_pixels frame_index σ
    = Some (frame_image, <[fresh (dom σ) := frame_image]> σ) ∧
    renders frame_index frame_image.
Proof.
  intros Hbase.
  destruct (build_entry color_list_map frame_index color_lists_rgb)
    as (table & Htable & _).
  exists (substitute table <$> pixels). split; [|by exists table].
  unfold generate_frame, copy_list, contents, new_list, bind, lift.
  rewrite Hbase. simpl. rewrite Htable.
  erewrite apply_map_spec by apply lookup_insert_eq.
  by rewrite insert_insert_eq, lookup_insert_eq.
Qed.

Lemma frame_loop_spec indices : ∀ (σ : store) frames,
  σ !! base_pixels = Some pixels →
  ∃ new_frames σ',
    frame_loop color_list_map color_lists_rgb base_pixels indices frames σ
    = Some (frames ++ new_frames, σ') ∧
    Forall2 renders indices new_frames ∧
    σ ⊆ σ' ∧
    size σ' = (size σ + length indices)%nat.
Proof.
  induction indices as [|k indices IH]; intros σ frames Hbase; simpl.
  - exists [], σ. rewrite app_nil_r. split_and!; [done|constructor|done|lia].
  - destruct (generate_frame_spec k σ Hbase) as (fr & Hfr & Hren).
    unfold bind at 1. rewrite Hfr.
    assert (σ !! fresh (dom σ) = None) as Hfresh.
    { apply not_elem_of_dom, is_fresh. }
    destruct (IH (<[fresh (dom σ) := fr]> σ) (frames ++ [fr]))
      as (new & σ' & -> & Hall & Hsub & Hsize).
    { rewrite lookup_insert_ne; [done|]. intros Heq.
      rewrite Heq in Hfresh. congruence. }
    exists (fr :: new), σ'. split_and!.
    + by rewrite <- app_assoc.
    + by constructor.
    + etrans; [|done]. by apply insert_subseteq.
    + rewrite Hsize, map_size_insert_None by done. lia.
Qed.
End frames.

End render_facts.

(** * The whole run *)

Lemma range_lookup n i :
  (i < Z.to_nat n)%nat → range n !! i = Some (Z.of_nat i).
Proof.
  intros Hi. unfold range. rewrite list_lookup_fmap.
  by rewrite lookup_seq_lt.
Qed.

Lemma length_range n : length (range n) = Z.to_nat n.
Proof. unfold range. by rewrite length_fmap, length_seq. Qed.

Lemma run_spec groups image (σ : Store.store) :
  ∃ frames σ',
    Render.run groups image σ = Some (fresh (dom σ), frames, σ') ∧
    Forall2 (renders (Registry.color_list_map (Registry.build groups))
                     groups image)
            (range (num_frames groups)) frames ∧
    <[fresh (dom σ) := image]> σ ⊆ σ' ∧
    size σ' = (S (size σ) + Z.to_nat (num_frames groups))%nat.
Proof.
  assert (σ !! fresh (dom σ) = None) as Hfresh.
  { apply not_elem_of_dom, is_fresh. }
  destruct (frame_loop_spec (Registry.color_list_map (Registry.build groups))
              groups (fresh (dom σ)) image (range (num_frames groups))
              (<[fresh (dom σ) := image]> σ) [])
    as (frames & σ' & Hloop & Hall & Hsub & Hsize).
  { apply lookup_insert_eq. }
  exists frames, σ'. split_and!; [|done..|].
  - unfold Render.run, Store.bind at 1, Store.new_list.
    unfold Store.bind, Store.ret. by rewrite Hloop.
  - rewrite Hsize, map_size_insert_None, length_range by done. done.
Qed.

(** * Ownership and table entries *)

Lemma registry_dom groups c :
  c ∈ dom (Registry.color_list_map (Registry.build groups))
  ↔ ∃ g, g ∈ groups ∧ c ∈ g.
Proof.
  rewrite elem_of_dom, build_lookup. split.
  - intros [i Hi]. apply first_group_spec in Hi as (g & Hg & Hc & _).
    exists g. split; [|done]. by eapply list_elem_of_lookup_2.
  - intros (g & Hg & Hc).
    destruct (first_group c groups) eqn:E; [by eexists|].
    exfalso. by eapply first_group_None.
Qed.

(** The entry of a colour whose first group is [g], at index [owner]. *)
Lemma entry_owner groups k c owner g :
  first_group c groups = Some owner → groups !! owner = Some g →
  ∃ i v, last_index c g = Some i ∧ rotated k g i = Some v ∧
    entry (Registry.color_list_map (Registry.build groups)) k groups c
    = Some v.
Proof.
  intros Hfirst Hg.
  assert (c ∈ g) as Hc.
  { apply first_group_spec in Hfirst as (g' & Hg' & Hc & _). congruence. }
  destruct (proj1 (last_index_is_Some c g) Hc) as [i Hi].
  destruct (rotated_is_Some k g i) as [v Hv].
  { intros ->. by apply elem_of_nil in Hc. }
  exists i, v. split_and!; [done..|].
  unfold entry. rewrite build_lookup, Hfirst. simpl.
  rewrite Hg. simpl. by rewrite Hi.
Qed.

Lemma entry_not_target groups k c :
  (∀ g, g ∈ groups → c ∉ g) →
  entry (Registry.color_list_map (Registry.build groups)) k groups c = None.
Proof.
  intros Hc. unfold entry.
  by rewrite build_lookup, (proj2 (first_group_None c groups) Hc).
Qed.

Lemma substitute_not_target groups k table p :
  (∀ c, table !! c
        = entry (Registry.color_list_map (Registry.build groups)) k groups c) →
  (∀ g, g ∈ groups → p ∉ g) →
  substitute table p = p.
Proof.
  intros Htable Hp. unfold substitute.
  by rewrite Htable, entry_not_target.
Qed.

Lemma build_targets groups :
  Registry.all_target_colors_rgb (Registry.build groups)
  = list_to_set (concat groups).
Proof.
  unfold Registry.build. rewrite register_groups_targets. simpl. set_solver.
Qed.

Lemma elem_of_concat (c : Color) (groups : list (list Color)) :
  c ∈ concat groups ↔ ∃ g, g ∈ groups ∧ c ∈ g.
Proof.
  induction groups as [|g groups IH]; simpl.
  - split; [by intros ?%elem_of_nil|]. by intros (g & ?%elem_of_nil & _).
  - rewrite elem_of_app, IH. split.
    + intros [Hc|(g' & Hg' & Hc)].
      * exists g. split; [by left|done].
      * exists g'. split; [by right|done].
    + intros (g' & [->|Hg']%elem_of_cons & Hc); [by left|].
      right. by exists g'.
Qed.

Lemma build_dom_targets groups :
  dom (Registry.color_list_map (Registry.build groups))
  = Registry.all_target_colors_rgb (Registry.build groups).
Proof.
  apply set_eq. intros c. rewrite registry_dom, build_targets.
  by rewrite elem_of_list_to_set, elem_of_concat.
Qed.

Lemma entry_period color_list_map groups k c :
  entry color_list_map (k + num_frames groups) groups c
  = entry color_list_map k groups c.
Proof.
  unfold entry. destruct (color_list_map !! c) as [owner|]; simpl; [|done].
  destruct (groups !! owner) as [g|] eqn:Hg; simpl; [|done].
  destruct (last_index c g) as [j|]; simpl; [|done].
  apply rotated_period, num_frames_divides.
  by eapply list_elem_of_lookup_2.
Qed.

Lemma entry_frame_0 color_list_map groups c c' :
  entry color_list_map 0 groups c = Some c' → c' = c.
Proof.
  unfold entry. destruct (color_list_map !! c) as [owner|]; simpl; [|done].
  destruct (groups !! owner) as [g|]; simpl; [|done].
  destruct (last_index c g) as [j|] eqn:Hj; simpl; [|done].
  rewrite (rotated_0 g j c) by (by apply last_index_lookup). congruence.
Qed.

Lemma first_group_single c g : c ∈ g → first_group c [g] = Some 0%nat.
Proof. intros Hc. unfold first_group. simpl. by rewrite decide_True. Qed.

Lemma substitute_identity (table : gmap Color Color) (pixels : list Color) :
  (∀ c c', table !! c = Some c' → c' = c) →
  substitute table <$> pixels = pixels.
Proof.
  intros Hid. induction pixels as [|p pixels IH]; [done|].
  rewrite fmap_cons, IH. f_equal. unfold substitute.
  destruct (table !! p) as [v|] eqn:E; simpl; [by apply Hid|done].
Qed.

(** * The claims *)

(** C5. Registry, first claim wins: after scanning the groups in input
    order, a colour is mapped to index [i] exactly when group [i] is the
    first (lowest-index) group that contains it, so every colour of any
    group has one owner; the set of seen colours is the key set.  Meeting
    an already seen colour keeps the map as it is and appends one warning
    naming that colour, a new colour is claimed without a warning, and
    the scan goes on: the warnings of the whole scan are exactly the
    re-occurrences, in scan order. *)
Theorem registry_first_claim_wins (groups : list (list Color)) :
  (∀ c i,
     Registry.color_list_map (Registry.build groups) !! c = Some i ↔
     ∃ g, groups !! i = Some g ∧ c ∈ g ∧
       ∀ j g', (j < i)%nat → groups !! j = Some g' → c ∉ g') ∧
  (∀ c g, g ∈ groups → c ∈ g →
     is_Some (Registry.color_list_map (Registry.build groups) !! c)) ∧
  dom (Registry.color_list_map (Registry.build groups))
    = Registry.all_target_colors_rgb (Registry.build groups) ∧
  Registry.all_target_colors_rgb (Registry.build groups)
    = list_to_set (concat groups) ∧
  (∀ i st c, c ∈ Registry.all_target_colors_rgb st →
     Registry.color_list_map (Registry.register_color i st c)
       = Registry.color_list_map st ∧
     Registry.warnings (Registry.register_color i st c)
       = Registry.warnings st ++ [c]) ∧
  (∀ i st c, c ∉ Registry.all_target_colors_rgb st →
     Registry.color_list_map (Registry.register_color i st c)
       = <[c := i]> (Registry.color_list_map st) ∧
     Registry.warnings (Registry.register_color i st c)
       = Registry.warnings st) ∧
  Registry.warnings (Registry.build groups) = repeats ∅ (concat groups).
Proof.
  split_and!.
  - intros c i. rewrite build_lookup. apply first_group_spec.
  - intros c g Hg Hc. apply elem_of_dom, registry_dom. eauto.
  - apply build_dom_targets.
  - apply build_targets.
  - intros i st c Hc. unfold Registry.register_color.
    by rewrite decide_True.
  - intros i st c Hc. unfold Registry.register_color.
    by rewrite decide_False.
  - unfold Registry.build. by rewrite register_groups_warnings.
Qed.

(** C2. The frame count is the least common multiple of the group
    lengths: it is the spec's pairwise reduction with
    [lcm(a,b) = |a*b| / gcd(a,b)], every group length divides it, it
    divides every common multiple, it is not negative, and it is 1 for
    no group; on lengths [2,3], [4,6], [5] and [] it is 6, 12, 5, 1. *)
Theorem cycle_length_is_lcm :
  (∀ groups, num_frames groups = CycleLength (len <$> groups)) ∧
  (∀ a b, a ≠ 0 → b ≠ 0 →
     calculate_lcm a b = Z.abs (a * b) `div` Z.gcd a b) ∧
  (∀ a b, calculate_lcm a b = Z.lcm a b) ∧
  (∀ groups,
     (∀ g, g ∈ groups → (len g | num_frames groups)) ∧
     (∀ m, (∀ g, g ∈ groups → (len g | m)) → (num_frames groups | m)) ∧
     0 ≤ num_frames groups) ∧
  num_frames [] = 1 ∧
  CycleLength [2; 3] = 6 ∧ CycleLength [4; 6] = 12 ∧
  CycleLength [5] = 5 ∧ CycleLength [] = 1 ∧
  num_frames [[red; green]; [blue; grey; red]] = 6 ∧
  num_frames [[red; green; blue; grey];
              [red; green; blue; grey; red; green]] = 12 ∧
  num_frames [[red; green; blue; grey; red]] = 5.
Proof.
  split_and!; try reflexivity.
  - intros [|g groups]; simpl; [done|]. apply fold_lcm_spec.
  - intros a b Ha Hb. unfold calculate_lcm. by rewrite decide_True.
  - apply calculate_lcm_lcm.
  - intros groups. split_and!.
    + intros g. apply num_frames_divides.
    + intros m. apply num_frames_least.
    + apply num_frames_nonneg.
Qed.

(** C7. For any frame index the table is built, and its keys are
    exactly the colours that occur in some group: the key set is the
    registry's set of target colours, every key has an owner, and a
    colour outside every group has no entry. *)
Theorem table_keys_are_targets (groups : list (list Color)) (k : Z) :
  ∃ table,
    FrameMap.build (Registry.color_list_map (Registry.build groups)) k groups
      = Some table ∧
    (∀ c, c ∈ dom table ↔ ∃ g, g ∈ groups ∧ c ∈ g) ∧
    dom table = Registry.all_target_colors_rgb (Registry.build groups) ∧
    dom table = dom (Registry.color_list_map (Registry.build groups)) ∧
    (∀ c, (∀ g, g ∈ groups → c ∉ g) → table !! c = None).
Proof.
  destruct (build_entry (Registry.color_list_map (Registry.build groups))
              k groups) as (table & Htable & Hlook).
  assert (∀ c, c ∈ dom table ↔ ∃ g, g ∈ groups ∧ c ∈ g) as Hdom.
  { intros c. rewrite elem_of_dom, Hlook. split.
    - intros [v Hv]. apply registry_dom, elem_of_dom.
      unfold entry in Hv.
      destruct (Registry.color_list_map (Registry.build groups) !! c);
        [by eexists|done].
    - intros Hc%registry_dom%elem_of_dom. destruct Hc as [owner Hown].
      pose proof Hown as Hfirst. rewrite build_lookup in Hfirst.
      pose proof Hfirst as (g & Hg & _)%first_group_spec.
      destruct (entry_owner groups k c owner g Hfirst Hg)
        as (i & v & _ & _ & ->). by eexists. }
  assert (dom table = dom (Registry.color_list_map (Registry.build groups)))
    as Hreg.
  { apply set_eq. intros c. by rewrite Hdom, registry_dom. }
  exists table. split_and!; [done..| | |].
  - rewrite Hreg. apply build_dom_targets.
  - done.
  - intros c Hc. rewrite Hlook. by apply entry_not_target.
Qed.

(** C4. Full-cycle periodicity: for every integer frame index [k] the
    table of frame [k + num_frames] is the table of frame [k] (and both
    are built). *)
Theorem full_cycle_periodicity (groups : list (list Color)) (k : Z) :
  FrameMap.build (Registry.color_list_map (Registry.build groups))
                 (k + num_frames groups) groups
  = FrameMap.build (Registry.color_list_map (Registry.build groups)) k groups
  ∧ is_Some (FrameMap.build (Registry.color_list_map (Registry.build groups))
                            k groups).
Proof.
  destruct (build_entry (Registry.color_list_map (Registry.build groups))
              k groups) as (t1 & Ht1 & Hl1).
  destruct (build_entry (Registry.color_list_map (Registry.build groups))
              (k + num_frames groups) groups) as (t2 & Ht2 & Hl2).
  rewrite Ht1, Ht2. split; [|by eexists]. f_equal.
  apply map_eq. intros c. by rewrite Hl1, Hl2, entry_period.
Qed.

(** C1. Ownership exclusivity: let [c] occur in group [owner] and in no
    group before it, and also in some other group.  Then at every frame
    index of the cycle the table sends [c] to the rotation of a place of
    [c] inside the owning group, which is also the entry that the owning
    group alone would give; and at each place of [c] in any other group
    the build step leaves the table as it is. *)
Theorem ownership_exclusivity (groups : list (list Color)) (c : Color)
    (owner : nat) (g : list Color) (k : Z) :
  groups !! owner = Some g → c ∈ g →
  (∀ j g', (j < owner)%nat → groups !! j = Some g' → c ∉ g') →
  (∃ j g', j ≠ owner ∧ groups !! j = Some g' ∧ c ∈ g') →
  0 ≤ k < num_frames groups →
  ∃ table alone i v,
    FrameMap.build (Registry.color_list_map (Registry.build groups)) k groups
      = Some table ∧
    g !! i = Some c ∧ rotated k g i = Some v ∧
    table !! c = Some v ∧
    FrameMap.build (Registry.color_list_map (Registry.build [g])) k [g]
      = Some alone ∧
    alone !! c = Some v ∧
    ∀ j g' i' m, j ≠ owner → groups !! j = Some g' → g' !! i' = Some c →
      FrameMap.map_color (Registry.color_list_map (Registry.build groups))
                         k j g' i' c m = Some m.
Proof.
  intros Hg Hc Hfirst _ _.
  assert (first_group c groups = Some owner) as Hown.
  { apply first_group_spec. by exists g. }
  destruct (build_entry (Registry.color_list_map (Registry.build groups))
              k groups) as (table & Htable & Hlook).
  destruct (build_entry (Registry.color_list_map (Registry.build [g]))
              k [g]) as (alone & Halone & Hlook1).
  destruct (entry_owner groups k c owner g Hown Hg) as (i & v & Hi & Hv & He).
  destruct (entry_owner [g] k c 0 g (first_group_single c g Hc) eq_refl)
    as (i' & v' & Hi' & Hv' & He').
  assert (i' = i) as -> by congruence.
  assert (v' = v) as -> by congruence.
  exists table, alone, i, v. split_and!; [done| |done| |done| |].
  - by apply last_index_lookup.
  - by rewrite Hlook.
  - by rewrite Hlook1.
  - intros j g' i'' m Hj _ _. apply map_color_not_owner.
    rewrite build_lookup, Hown. congruence.
Qed.

Lemma ownership_exclusivity_witness :
  ∃ table,
    FrameMap.build
      (Registry.color_list_map (Registry.build [[red; green]; [green; blue]]))
      1 [[red; green]; [green; blue]] = Some table ∧
    table !! green = Some red ∧ table !! green ≠ Some blue.
Proof.
  destruct (ownership_exclusivity [[red; green]; [green; blue]] green 0
              [red; green] 1)
    as (table & alone & i & v & Htable & Hi & Hv & Hlook & _).
  - reflexivity.
  - set_solver.
  - intros j g' Hj. lia.
  - exists 1%nat, [green; blue]. split_and!; [lia|reflexivity|set_solver].
  - vm_compute. by split.
  - exists table. split; [done|].
    destruct i as [|[|i]]; [discriminate Hi| |discriminate Hi].
    vm_compute in Hv. rewrite Hlook, <- Hv. split; [done|discriminate].
Defined.

(** C10. Last occurrence wins: if [c] sits at place [i] of its owning
    group and at no later place, the table of any frame sends [c] to the
    colour [frame_index] places after [i] (wrapping around); every place
    of [c] in the owning group writes the entry of [c], so a later place
    overwrites an earlier one. *)
Theorem last_occurrence_wins (groups : list (list Color)) (c : Color)
    (owner : nat) (g : list Color) (i : nat) (k : Z) :
  groups !! owner = Some g →
  (∀ j g', (j < owner)%nat → groups !! j = Some g' → c ∉ g') →
  g !! i = Some c →
  (∀ j, (i < j)%nat → g !! j ≠ Some c) →
  ∃ table v,
    FrameMap.build (Registry.color_list_map (Registry.build groups)) k groups
      = Some table ∧
    g !! Z.to_nat ((Z.of_nat i + k) `mod` len g) = Some v ∧
    table !! c = Some v ∧
    ∀ i' m, g !! i' = Some c →
      ∃ v', g !! Z.to_nat ((Z.of_nat i' + k) `mod` len g) = Some v' ∧
        FrameMap.map_color (Registry.color_list_map (Registry.build groups))
                           k owner g i' c m
        = Some (<[c := v']> m).
Proof.
  intros Hg Hfirst Hi Hlast.
  assert (c ∈ g) as Hc by (by eapply list_elem_of_lookup_2).
  assert (first_group c groups = Some owner) as Hown.
  { apply first_group_spec. by exists g. }
  destruct (build_entry (Registry.color_list_map (Registry.build groups))
              k groups) as (table & Htable & Hlook).
  destruct (entry_owner groups k c owner g Hown Hg)
    as (i0 & v & Hi0 & Hv & He).
  rewrite (last_index_unique c g i Hi Hlast) in Hi0. simplify_eq.
  exists table, v. split_and!; [done|done| |].
  - by rewrite Hlook.
  - intros i' m Hi'.
    destruct (map_color_owner (Registry.color_list_map (Registry.build groups))
                k owner g i' c m) as (v' & Hv' & Hstep).
    + by rewrite build_lookup.
    + intros ->. by apply elem_of_nil in Hc.
    + by exists v'.
Qed.

Lemma last_occurrence_wins_witness :
  ∃ table,
    FrameMap.build
      (Registry.color_list_map (Registry.build [[red; green; red; blue]]))
      1 [[red; green; red; blue]] = Some table ∧
    table !! red = Some blue.
Proof.
  destruct (last_occurrence_wins [[red; green; red; blue]] red 0
              [red; green; red; blue] 2 1)
    as (table & v & Htable & Hv & Hlook & _).
  - reflexivity.
  - intros j g' Hj. lia.
  - reflexivity.
  - intros [|[|[|[|j]]]] Hj; try lia; discriminate.
  - exists table. split; [done|].
    vm_compute in Hv. by rewrite Hlook, <- Hv.
Defined.

(** C3. Identity at frame 0: for groups of length at least 2 the table
    of frame 0 is built and sends every owned colour to itself (and has
    no other kind of entry), so substituting with it changes no pixel,
    and the first frame of the run is the source image. *)
Theorem identity_at_frame_0 (groups : list (list Color))
    (image : list Color) (σ : gmap Store.loc (list Color)) :
  Forall (λ g, (2 ≤ length g)%nat) groups →
  ∃ table,
    FrameMap.build (Registry.color_list_map (Registry.build groups)) 0 groups
      = Some table ∧
    (∀ c, c ∈ dom (Registry.color_list_map (Registry.build groups)) →
       table !! c = Some c) ∧
    (∀ c c', table !! c = Some c' → c' = c) ∧
    (∀ pixels : list Color, substitute table <$> pixels = pixels) ∧
    ∃ base_pixels frames σ',
      Render.run groups image σ = Some (base_pixels, frames, σ') ∧
      frames !! 0%nat = Some image.
Proof.
  intros Hvalid.
  destruct (build_entry (Registry.color_list_map (Registry.build groups))
              0 groups) as (table & Htable & Hlook).
  assert (∀ c c', table !! c = Some c' → c' = c) as Hid.
  { intros c c'. rewrite Hlook. apply entry_frame_0. }
  exists table. split_and!; [done| |done| |].
  - intros c [owner Hown]%elem_of_dom.
    pose proof Hown as Hfirst. rewrite build_lookup in Hfirst.
    pose proof Hfirst as (g & Hg & _)%first_group_spec.
    destruct (entry_owner groups 0 c owner g Hfirst Hg)
      as (i & v & _ & _ & He).
    rewrite Hlook, He. f_equal. by eapply entry_frame_0.
  - intros pixels. by apply substitute_identity.
  - destruct (run_spec groups image σ) as (frames & σ' & Hrun & Hall & _).
    exists (fresh (dom σ)), frames, σ'. split; [done|].
    assert (0 < num_frames groups) as Hpos.
    { apply num_frames_pos. eapply Forall_impl; [done|]. simpl. lia. }
    destruct (Forall2_lookup_l _ _ _ 0%nat 0 Hall) as (fr & Hfr & Hren).
    { apply range_lookup. lia. }
    destruct Hren as (table' & Htable' & ->).
    assert (table' = table) as -> by congruence.
    rewrite substitute_identity in Hfr by done. exact Hfr.
Qed.

Lemma identity_at_frame_0_witness :
  Forall (λ g : list Color, (2 ≤ length g)%nat) [[red; green; blue]] ∧
  ∃ base_pixels frames σ',
    Render.run [[red; green; blue]] [red; blue; grey] ∅
      = Some (base_pixels, frames, σ') ∧
    frames !! 0%nat = Some [red; blue; grey].
Proof.
  assert (Forall (λ g : list Color, (2 ≤ length g)%nat) [[red; green; blue]])
    as Hvalid.
  { repeat constructor. }
  split; [done|].
  destruct (identity_at_frame_0 [[red; green; blue]] [red; blue; grey] ∅ Hvalid)
    as (table & _ & _ & _ & _ & Hrun).
  exact Hrun.
Defined.

(** C6. Renderer pixel rule: applying a table to a pixel buffer gives,
    at every position, the table's value for the source pixel when its
    colour is a key and the source pixel itself otherwise (same length,
    same buffer object).  Hence, for any groups and any frame index, a
    pixel whose colour is in no group is the same in the rendered frame
    as in the source. *)
Theorem renderer_pixel_rule (table : gmap Color Color) (l : Store.loc)
    (σ : gmap Store.loc (list Color)) (data : list Color) :
  σ !! l = Some data →
  (∃ out,
     Render.apply_map table l σ = Some ((), <[l := out]> σ) ∧
     length out = length data ∧
     ∀ i p, data !! i = Some p →
       out !! i = Some (match table !! p with
                        | Some new_color => new_color
                        | None => p
                        end)) ∧
  (∀ groups frame_index,
     ∃ frame_image σ',
       Render.generate_frame (Registry.color_list_map (Registry.build groups))
                             groups l frame_index σ
       = Some (frame_image, σ') ∧
       length frame_image = length data ∧
       ∀ i p, data !! i = Some p → (∀ g, g ∈ groups → p ∉ g) →
         frame_image !! i = Some p).
Proof.
  intros Hl. split.
  - exists (substitute table <$> data). split_and!.
    + by apply apply_map_spec.
    + by rewrite length_fmap.
    + intros i p Hp. rewrite list_lookup_fmap, Hp. simpl.
      unfold substitute. by destruct (table !! p).
  - intros groups k.
    destruct (generate_frame_spec
                (Registry.color_list_map (Registry.build groups))
                groups l data k σ Hl) as (fr & Hfr & table' & Htable & ->).
    eexists _, _. split_and!; [done| |].
    + by rewrite length_fmap.
    + intros i p Hp Hout. rewrite list_lookup_fmap, Hp. simpl. f_equal.
      destruct (build_entry (Registry.color_list_map (Registry.build groups))
                  k groups) as (t & Ht & Hlook).
      assert (t = table') as -> by congruence.
      by eapply substitute_not_target.
Qed.

Lemma renderer_pixel_rule_witness :
  ∃ out,
    Render.apply_map {[red := green]} 0%nat {[0%nat := [red; blue; red]]}
      = Some ((), <[0%nat := out]> {[0%nat := [red; blue; red]]}) ∧
    out = [green; blue; green].
Proof.
  destruct (renderer_pixel_rule {[red := green]} 0%nat
              {[0%nat := [red; blue; red]]} [red; blue; red])
    as [(out & Hrun & Hlen & Hout) _].
  - reflexivity.
  - exists out. split; [done|].
    pose proof (Hout 0%nat red eq_refl) as H0.
    pose proof (Hout 1%nat blue eq_refl) as H1.
    pose proof (Hout 2%nat red eq_refl) as H2.
    destruct out as [|a [|b [|c [|]]]]; try discriminate Hlen.
    vm_compute in H0, H1, H2.
    injection H0 as ->. injection H1 as ->. injection H2 as ->. reflexivity.
Defined.

(** C8. Sequence length and ordering: every run returns, the number of
    frames is [num_frames], and the frame at position [i] is the source
    image substituted by the table of frame index [i]. *)
Theorem frame_sequence_ordered (groups : list (list Color))
    (image : list Color) (σ : gmap Store.loc (list Color)) :
  ∃ base_pixels frames σ',
    Render.run groups image σ = Some (base_pixels, frames, σ') ∧
    Z.of_nat (length frames) = num_frames groups ∧
    ∀ i, (i < length frames)%nat →
      ∃ table,
        FrameMap.build (Registry.color_list_map (Registry.build groups))
                       (Z.of_nat i) groups = Some table ∧
        frames !! i = Some (substitute table <$> image).
Proof.
  destruct (run_spec groups image σ) as (frames & σ' & Hrun & Hall & _).
  pose proof (Forall2_length _ _ _ Hall) as Hlen.
  rewrite length_range in Hlen.
  exists (fresh (dom σ)), frames, σ'. split_and!; [done| |].
  - pose proof (num_frames_nonneg groups). lia.
  - intros i Hi.
    destruct (Forall2_lookup_l _ _ _ i (Z.of_nat i) Hall)
      as (fr & Hfr & table & Htable & ->).
    { apply range_lookup. lia. }
    by exists table.
Qed.

(** C9. The source buffer is never mutated: if the store holds the
    source pixels at [base_pixels], generating all frames of the cycle
    returns with the same pixels at [base_pixels] and with every object
    that existed before unchanged; each frame uses one new object, at a
    location that was free (so it is not [base_pixels]). *)
Theorem source_never_mutated (groups : list (list Color))
    (base_pixels : Store.loc) (pixels : list Color)
    (σ : gmap Store.loc (list Color)) :
  σ !! base_pixels = Some pixels →
  (∃ frames σ',
     Render.frame_loop (Registry.color_list_map (Registry.build groups))
                       groups base_pixels (range (num_frames groups)) [] σ
     = Some (frames, σ') ∧
     σ' !! base_pixels = Some pixels ∧
     (∀ l data, σ !! l = Some data → σ' !! l = Some data) ∧
     size σ' = (size σ + Z.to_nat (num_frames groups))%nat) ∧
  (∀ frame_index,
     ∃ frame_image,
       Render.generate_frame (Registry.color_list_map (Registry.build groups))
                             groups base_pixels frame_index σ
       = Some (frame_image, <[fresh (dom σ) := frame_image]> σ) ∧
       σ !! fresh (dom σ) = None ∧
       fresh (dom σ) ≠ base_pixels).
Proof.
  intros Hbase. split.
  - destruct (frame_loop_spec (Registry.color_list_map (Registry.build groups))
                groups base_pixels pixels (range (num_frames groups)) σ []
                Hbase) as (frames & σ' & Hloop & _ & Hsub & Hsize).
    exists frames, σ'. split_and!; [done| | |].
    + by eapply lookup_weaken.
    + intros l data Hl. by eapply lookup_weaken.
    + by rewrite Hsize, length_range.
  - intros k.
    destruct (generate_frame_spec
                (Registry.color_list_map (Registry.build groups))
                groups base_pixels pixels k σ Hbase) as (fr & Hfr & _).
    assert (σ !! fresh (dom σ) = None) as Hfresh.
    { apply not_elem_of_dom, is_fresh. }
    exists fr. split_and!; [done..|]. congruence.
Qed.

Lemma source_never_mutated_witness :
  ∃ frames σ',
    Render.frame_loop
      (Registry.color_list_map (Registry.build [[red; green; blue]]))
      [[red; green; blue]] 0%nat (range 3) [] {[0%nat := [red; blue]]}
    = Some (frames, σ') ∧
    σ' !! 0%nat = Some [red; blue] ∧
    size σ' = 4%nat.
Proof.
  destruct (source_never_mutated [[red; green; blue]] 0%nat [red; blue]
              {[0%nat := [red; blue]]})
    as [(frames & σ' & Hloop & Hbase & _ & Hsize) _].
  - reflexivity.
  - exists frames, σ'. split_and!; [exact Hloop|exact Hbase|exact Hsize].
Defined.

(** The spec's end-to-end scenario: two pixels, one group of three. *)
Example end_to_end_scenario :
  ∃ base_pixels σ',
    Render.run [[red; green; blue]] [red; blue] ∅
    = Some (base_pixels,
            [[red; blue]; [green; red]; [blue; green]], σ').
Proof. eexists _, _. vm_compute. reflexivity. Qed.

(** * Text, validation and conversion of colours *)

Section text_facts.
Import Text.
Variable p : ascii → bool.

Lemma lstrip_chars_head s c t : lstrip_chars p s = c :: t → p c = false.
Proof.
  induction s as [|x s IH]; simpl; [done|].
  destruct (p x) eqn:E; [done|]. by intros [= <- _].
Qed.

Lemma lstrip_chars_keep c t : p c = false → lstrip_chars p (c :: t) = c :: t.
Proof. intros Hc. simpl. by rewrite Hc. Qed.

Lemma lstrip_chars_idemp s : lstrip_chars p (lstrip_chars p s) = lstrip_chars p s.
Proof.
  destruct (lstrip_chars p s) as [|c t] eqn:E; [done|].
  apply lstrip_chars_keep. by eapply lstrip_chars_head.
Qed.

Lemma lstrip_chars_snoc s c :
  p c = false → lstrip_chars p (s ++ [c]) = lstrip_chars p s ++ [c].
Proof.
  intros Hc. induction s as [|x s IH]; simpl.
  - by rewrite Hc.
  - by destruct (p x).
Qed.

Lemma rstrip_chars_cons c t :
  p c = false → rstrip_chars p (c :: t) = c :: rstrip_chars p t.
Proof.
  intros Hc. unfold rstrip_chars.
  by rewrite reverse_cons, lstrip_chars_snoc, reverse_snoc.
Qed.

Lemma rstrip_chars_last s t c : rstrip_chars p s = t ++ [c] → p c = false.
Proof.
  unfold rstrip_chars. intros H.
  apply (f_equal reverse) in H.
  rewrite reverse_involutive, reverse_snoc in H.
  by eapply lstrip_chars_head.
Qed.

Lemma rstrip_chars_idemp s :
  rstrip_chars p (rstrip_chars p s) = rstrip_chars p s.
Proof.
  unfold rstrip_chars. by rewrite reverse_involutive, lstrip_chars_idemp.
Qed.

Lemma rstrip_chars_head s c t :
  rstrip_chars p (lstrip_chars p s) = c :: t → p c = false.
Proof.
  destruct (lstrip_chars p s) as [|x s'] eqn:E.
  - by rewrite (eq_refl : rstrip_chars p [] = []).
  - pose proof (lstrip_chars_head _ _ _ E) as Hx.
    rewrite rstrip_chars_cons by done. by intros [= <- _].
Qed.
End text_facts.

Lemma strip_idemp s : Text.strip (Text.strip s) = Text.strip s.
Proof.
  unfold Text.strip.
  destruct (Text.rstrip_chars Text.is_space
              (Text.lstrip_chars Text.is_space s)) as [|c t] eqn:E; [done|].
  rewrite lstrip_chars_keep by (by eapply rstrip_chars_head).
  rewrite <- E. apply rstrip_chars_idemp.
Qed.

Lemma strip_last s t c : Text.strip s = t ++ [c] → Text.is_space c = false.
Proof. unfold Text.strip. apply rstrip_chars_last. Qed.

Lemma strip_keep c t :
  Text.is_space c = false →
  Text.strip (c :: t) = c :: Text.rstrip_chars Text.is_space t.
Proof.
  intros Hc. unfold Text.strip.
  by rewrite lstrip_chars_keep, rstrip_chars_cons.
Qed.

Lemma hex_digit_not_space c :
  Text.is_hex_digit c = true → Text.is_space c = false.
Proof.
  unfold Text.is_hex_digit, Text.is_space. generalize (Text.code c).
  intros n H. apply not_true_is_false. intros Hs.
  repeat first [ apply orb_prop in H as [H|H]
               | apply andb_prop in H as [? ?]
               | apply orb_prop in Hs as [Hs|Hs]
               | apply andb_prop in Hs as [? ?] ];
    repeat match goal with
           | H : (_ <=? _)%N = true |- _ => apply N.leb_le in H
           | H : (_ =? _)%N = true |- _ => apply N.eqb_eq in H
           end; lia.
Qed.

Lemma hex_digit_not_hash c :
  Text.is_hex_digit c = true → c ≠ "#"%char.
Proof. by intros H ->. Qed.

Lemma hex_value_bounds c :
  Text.is_hex_digit c = true → 0 ≤ Text.hex_value c ≤ 15.
Proof.
  unfold Text.is_hex_digit, Text.hex_value. generalize (Text.code c).
  intros n H.
  repeat first [ apply orb_prop in H as [H|H]
               | apply andb_prop in H as [? ?] ];
    repeat match goal with
           | H : (_ <=? _)%N = true |- _ => apply N.leb_le in H
           end;
    repeat case_match;
    repeat match goal with
           | H : (_ <=? _)%N = true |- _ => apply N.leb_le in H
           | H : (_ <=? _)%N = false |- _ => apply N.leb_gt in H
           end; lia.
Qed.

(** A text that the pattern accepts and that ends in no newline is six
    hexadecimal digits, after at most one [#]. *)
Lemma hex_color_re_shape s :
  hex_color_re s = true →
  (∀ t, s ≠ t ++ ["010"%char]) →
  ∃ a b c d e f,
    Forall (λ x, Text.is_hex_digit x = true) [a; b; c; d; e; f] ∧
    (s = [a; b; c; d; e; f] ∨ s = "#"%char :: [a; b; c; d; e; f]).
Proof.
  unfold hex_color_re. intros H Hnl.
  apply andb_prop in H as [H Hend]. apply andb_prop in H as [Hhex Hlen].
  apply bool_decide_eq_true in Hlen.
  set (body := match s with
               | c :: rest => if decide (c = "#"%char) then rest else s
               | [] => s
               end) in *.
  assert (s = body ∨ s = "#"%char :: body) as Hs.
  { unfold body. destruct s as [|x s]; [by left|].
    destruct (decide (x = "#"%char)) as [->|]; [by right|by left]. }
  destruct body as [|a [|b [|c [|d [|e [|f rest]]]]]]; try discriminate Hlen.
  simpl in Hend, Hhex. rewrite drop_0 in Hend.
  assert (rest = []) as ->.
  { apply orb_prop in Hend as [Hend|Hend]; apply bool_decide_eq_true in Hend;
      [done|]. subst rest. exfalso.
    destruct Hs as [->| ->].
    - by apply (Hnl [a; b; c; d; e; f]).
    - by apply (Hnl ("#"%char :: [a; b; c; d; e; f])). }
  exists a, b, c, d, e, f. split; [|done].
  repeat (apply andb_prop in Hhex as [? Hhex]).
  by repeat constructor.
Qed.

Lemma validate_hex_color_shape s :
  validate_hex_color s = true →
  ∃ a b c d e f,
    Forall (λ x, Text.is_hex_digit x = true) [a; b; c; d; e; f] ∧
    (Text.strip s = [a; b; c; d; e; f]
     ∨ Text.strip s = "#"%char :: [a; b; c; d; e; f]).
Proof.
  unfold validate_hex_color. intros H.
  apply hex_color_re_shape; [done|].
  intros t Ht. by apply strip_last in Ht.
Qed.

Section conversion_facts.
Variable py_int16 : str → option Z.
Hypothesis py_int16_hex_pair : ∀ a b,
  Text.is_hex_digit a = true → Text.is_hex_digit b = true →
  py_int16 [a; b] = Some (16 * Text.hex_value a + Text.hex_value b).

Lemma hex_to_rgb_digits a b c d e f :
  Forall (λ x, Text.is_hex_digit x = true) [a; b; c; d; e; f] →
  hex_to_rgb py_int16 [a; b; c; d; e; f]
  = Ok (16 * Text.hex_value a + Text.hex_value b,
        16 * Text.hex_value c + Text.hex_value d,
        16 * Text.hex_value e + Text.hex_value f) ∧
  hex_to_rgb py_int16 ("#"%char :: [a; b; c; d; e; f])
  = hex_to_rgb py_int16 [a; b; c; d; e; f].
Proof.
  intros Hall.
  apply Forall_cons in Hall as [Ha Hall]. apply Forall_cons in Hall as [Hb Hall].
  apply Forall_cons in Hall as [Hc Hall]. apply Forall_cons in Hall as [Hd Hall].
  apply Forall_cons in Hall as [He Hall]. apply Forall_cons in Hall as [Hf _].
  assert (Text.lstrip_chars (λ c, bool_decide (c = "#"%char)) [a; b; c; d; e; f]
          = [a; b; c; d; e; f]) as Hstrip.
  { apply lstrip_chars_keep, bool_decide_eq_false.
    by apply hex_digit_not_hash. }
  split.
  - unfold hex_to_rgb. rewrite Hstrip. simpl.
    by rewrite !py_int16_hex_pair.
  - reflexivity.
Qed.

Lemma hex_to_rgb_valid s :
  validate_hex_color s = true →
  ∃ r g b, hex_to_rgb py_int16 (Text.strip s) = Ok (r, g, b) ∧
    0 ≤ r ≤ 255 ∧ 0 ≤ g ≤ 255 ∧ 0 ≤ b ≤ 255.
Proof.
  intros (a & b & c & d & e & f & Hall & Hs)%validate_hex_color_shape.
  destruct (hex_to_rgb_digits a b c d e f Hall) as [Hrgb Hhash].
  eexists _, _, _. split.
  - destruct Hs as [-> | ->]; [exact Hrgb|by rewrite Hhash].
  - apply Forall_cons in Hall as [Ha Hall]. apply Forall_cons in Hall as [Hb Hall].
    apply Forall_cons in Hall as [Hc Hall]. apply Forall_cons in Hall as [Hd Hall].
    apply Forall_cons in Hall as [He Hall]. apply Forall_cons in Hall as [Hf _].
    pose proof (hex_value_bounds a Ha). pose proof (hex_value_bounds b Hb).
    pose proof (hex_value_bounds c Hc). pose proof (hex_value_bounds d Hd).
    pose proof (hex_value_bounds e He). pose proof (hex_value_bounds f Hf).
    lia.
Qed.
End conversion_facts.

Lemma hex_pair_int_reads : reads_hex_pairs hex_pair_int.
Proof. intros a b Ha Hb. unfold hex_pair_int. by rewrite Ha, Hb. Qed.

Lemma hex_digit_char_spec (d : N) :
  (d < 16)%N →
  Text.is_hex_digit (hex_digit_char d) = true ∧
  Text.hex_value (hex_digit_char d) = Z.of_N d.
Proof.
  intros Hd.
  assert (Forall (λ k, Text.is_hex_digit (hex_digit_char (N.of_nat k)) = true ∧
                        Text.hex_value (hex_digit_char (N.of_nat k))
                        = Z.of_N (N.of_nat k)) (seq 0 16)) as Hall.
  { repeat constructor. }
  rewrite Forall_forall in Hall.
  specialize (Hall (N.to_nat d)). rewrite N2Nat.id in Hall.
  apply Hall, elem_of_seq. lia.
Qed.

Lemma format_02x_byte (n : Z) :
  0 ≤ n ≤ 255 →
  format_02x n = [hex_digit_char (Z.to_N n / 16);
                  hex_digit_char (Z.to_N n mod 16)].
Proof.
  intros Hn.
  assert (forallb (λ k, bool_decide
            (format_02x (Z.of_nat k)
             = [hex_digit_char (Z.to_N (Z.of_nat k) / 16);
                hex_digit_char (Z.to_N (Z.of_nat k) mod 16)]))
            (seq 0 256) = true) as Hall by (vm_compute; reflexivity).
  rewrite forallb_forall in Hall.
  specialize (Hall (Z.to_nat n)). rewrite Z2Nat.id in Hall by lia.
  eapply bool_decide_eq_true_1, Hall, in_seq. lia.
Qed.

Lemma format_02x_byte_digits (n : Z) :
  0 ≤ n ≤ 255 →
  ∃ a b, format_02x n = [a; b] ∧
    Text.is_hex_digit a = true ∧ Text.is_hex_digit b = true ∧
    16 * Text.hex_value a + Text.hex_value b = n.
Proof.
  intros Hn. eexists _, _. split; [by apply format_02x_byte|].
  assert (Z.to_N n / 16 < 16)%N as Hq.
  { apply N.Div0.div_lt_upper_bound. lia. }
  assert (Z.to_N n mod 16 < 16)%N as Hr by (by apply N.mod_lt).
  destruct (hex_digit_char_spec _ Hq) as [-> ->].
  destruct (hex_digit_char_spec _ Hr) as [-> ->].
  split_and!; [done..|].
  pose proof (N.div_mod (Z.to_N n) 16). lia.
Qed.

(** * Extra properties: validation and conversion *)

(** X1. A text that [validate_hex_color] accepts converts: on its
    stripped form [hex_to_rgb] returns a colour, and each channel is
    between 0 and 255. *)
Theorem validated_color_converts (py_int16 : str → option Z) (s : str) :
  reads_hex_pairs py_int16 →
  validate_hex_color s = true →
  ∃ r g b, hex_to_rgb py_int16 (Text.strip s) = Ok (r, g, b) ∧
    0 ≤ r ≤ 255 ∧ 0 ≤ g ≤ 255 ∧ 0 ≤ b ≤ 255.
Proof. intros Hpy. by apply hex_to_rgb_valid. Qed.

Lemma validated_color_converts_witness :
  validate_hex_color (text " #FF00aB ") = true ∧
  hex_to_rgb hex_pair_int (Text.strip (text " #FF00aB ")) = Ok (255, 0, 171).
Proof.
  split; [reflexivity|].
  destruct (validated_color_converts hex_pair_int (text " #FF00aB ")
              hex_pair_int_reads eq_refl) as (r & g & b & H & _).
  rewrite H. vm_compute in H. by injection H as <- <- <-.
Defined.

(** X2. [hex_to_rgb] does not care how many [#] come first: any number
    of leading [#] gives the same result, value or error; the validator
    refuses a text that starts with two of them. *)
Theorem leading_hashes (py_int16 : str → option Z) (n : nat) (s : str) :
  hex_to_rgb py_int16 (replicate n "#"%char ++ s) = hex_to_rgb py_int16 s ∧
  validate_hex_color ("#"%char :: "#"%char :: s) = false.
Proof.
  split.
  - unfold hex_to_rgb.
    assert (Text.lstrip_chars (λ c, bool_decide (c = "#"%char))
              (replicate n "#"%char ++ s)
            = Text.lstrip_chars (λ c, bool_decide (c = "#"%char)) s) as ->;
      [|done].
    induction n as [|n IH]; [done|]. exact IH.
  - unfold validate_hex_color.
    rewrite strip_keep by done. rewrite rstrip_chars_cons by done.
    reflexivity.
Qed.

(** X3. Writing and reading back: for channels between 0 and 255 the
    text [#rrggbb] that lines 108 and 112 print is accepted by the
    validator and [hex_to_rgb] reads the same colour from it. *)
Theorem format_then_parse (py_int16 : str → option Z) (r g b : Z) :
  reads_hex_pairs py_int16 →
  0 ≤ r ≤ 255 → 0 ≤ g ≤ 255 → 0 ≤ b ≤ 255 →
  hex_to_rgb py_int16 (format_color (r, g, b)) = Ok (r, g, b) ∧
  validate_hex_color (format_color (r, g, b)) = true ∧
  length (format_color (r, g, b)) = 7%nat.
Proof.
  intros Hpy Hr Hg Hb.
  destruct (format_02x_byte_digits r Hr) as (r1 & r2 & Er & Hr1 & Hr2 & Vr).
  destruct (format_02x_byte_digits g Hg) as (g1 & g2 & Eg & Hg1 & Hg2 & Vg).
  destruct (format_02x_byte_digits b Hb) as (b1 & b2 & Eb & Hb1 & Hb2 & Vb).
  unfold format_color. rewrite Er, Eg, Eb. simpl.
  assert (Forall (λ x, Text.is_hex_digit x = true) [r1; r2; g1; g2; b1; b2])
    as Hall by (by repeat constructor).
  destruct (hex_to_rgb_digits py_int16 Hpy r1 r2 g1 g2 b1 b2 Hall)
    as [Hrgb Hhash].
  split_and!.
  - rewrite Hhash, Hrgb. by rewrite Vr, Vg, Vb.
  - unfold validate_hex_color. rewrite strip_keep by done.
    do 5 (rewrite rstrip_chars_cons by (by apply hex_digit_not_space)).
    assert (Text.rstrip_chars Text.is_space [b2] = [b2]) as ->.
    { unfold Text.rstrip_chars. simpl.
      by rewrite (hex_digit_not_space b2 Hb2). }
    unfold hex_color_re. simpl.
    by rewrite Hr1, Hr2, Hg1, Hg2, Hb1, Hb2.
  - done.
Qed.

Lemma format_then_parse_witness :
  format_color (255, 0, 171) = text "#ff00ab" ∧
  hex_to_rgb hex_pair_int (format_color (255, 0, 171)) = Ok (255, 0, 171).
Proof.
  split; [reflexivity|].
  apply (format_then_parse hex_pair_int 255 0 171 hex_pair_int_reads); lia.
Defined.

(** * The input loop *)

Lemma invalid_colors_of_nil colors_hex :
  invalid_colors_of colors_hex = [] →
  Forall (λ c, validate_hex_color c = true) colors_hex.
Proof.
  unfold invalid_colors_of.
  induction colors_hex as [|c cs IH]; [by constructor|].
  rewrite filter_cons. destruct (validate_hex_color c) eqn:E.
  - rewrite decide_False by done. intros H. constructor; auto.
  - by rewrite decide_True.
Qed.

Lemma colors_of_line_clean user_input c :
  c ∈ colors_of_line user_input → c ≠ [] ∧ Text.strip c = c.
Proof.
  unfold colors_of_line.
  intros [Hne (x & -> & _)%list_elem_of_fmap]%list_elem_of_filter.
  split; [done|]. apply strip_idemp.
Qed.

Lemma line_colors_clean line colors_hex :
  line_colors line = Some colors_hex →
  (2 ≤ length colors_hex)%nat ∧ Forall clean_color colors_hex.
Proof.
  unfold line_colors. repeat case_decide; try done. intros [= <-].
  split; [lia|].
  assert (invalid_colors_of (colors_of_line (Text.strip line)) = []) as Hinv.
  { by destruct (invalid_colors_of (colors_of_line (Text.strip line))). }
  apply invalid_colors_of_nil in Hinv.
  rewrite Forall_forall in Hinv. apply Forall_forall. intros c Hc.
  destruct (colors_of_line_clean _ _ Hc). split_and!; auto.
Qed.

Lemma omap_line_colors_nil (lines : list str) :
  omap line_colors lines = [] ↔ Forall (λ l, line_colors l = None) lines.
Proof.
  induction lines as [|l lines IH]; simpl.
  - split; [by constructor|done].
  - destruct (line_colors l) eqn:E; simpl.
    + split; [done|]. intros H. apply Forall_cons in H as [? _]. congruence.
    + rewrite IH. split; [by constructor|].
      intros H. by apply Forall_cons in H as [_ ?].
Qed.

Lemma line_colors_blank line : Text.strip line = [] → line_colors line = None.
Proof. intros H. unfold line_colors. by rewrite decide_True. Qed.

Lemma input_loop_accept line rest color_lists_hex list_num out colors_hex :
  line_colors line = Some colors_hex →
  input_loop (line :: rest) color_lists_hex list_num out
  = input_loop rest (color_lists_hex ++ [colors_hex]) (S list_num)
               (out ++ [Prompt list_num]).
Proof.
  unfold line_colors. simpl. repeat case_decide; try done. by intros [= <-].
Qed.

Lemma input_loop_reject line rest color_lists_hex list_num out :
  line_colors line = None →
  Text.strip line ≠ [] ∨ color_lists_hex = [] →
  ∃ out', input_loop (line :: rest) color_lists_hex list_num out
          = input_loop rest color_lists_hex list_num out'.
Proof.
  unfold line_colors. simpl. intros Hnone Hcase.
  repeat case_decide; try done; try (by eexists); by destruct Hcase.
Qed.

Lemma input_loop_stop line rest color_lists_hex list_num out :
  Text.strip line = [] → color_lists_hex ≠ [] →
  input_loop (line :: rest) color_lists_hex list_num out
  = Reading (Returned color_lists_hex) (out ++ [Prompt list_num]) rest.
Proof. intros Hblank Hne. simpl. by repeat case_decide. Qed.

(** The loop reads a prefix of the lines and adds to its lists what
    [line_colors] gives for them, in order. *)
Lemma input_loop_spec stdin : ∀ color_lists_hex list_num out,
  ∃ read,
    stdin = read ++ unread (input_loop stdin color_lists_hex list_num out) ∧
    match result_of (input_loop stdin color_lists_hex list_num out) with
    | Returned lists =>
        lists = color_lists_hex ++ omap line_colors read ∧ lists ≠ []
    | Exited status =>
        status = 1 ∧ color_lists_hex = [] ∧ omap line_colors read = [] ∧
        unread (input_loop stdin color_lists_hex list_num out) = []
    end ∧
    (unread (input_loop stdin color_lists_hex list_num out) ≠ [] →
     ∃ read' blank, read = read' ++ [blank] ∧ Text.strip blank = []).
Proof.
  induction stdin as [|line rest IH]; intros acc n out.
  - exists []. simpl. destruct (decide (acc = [])) as [->|Hne]; simpl.
    + split_and!; done.
    + rewrite app_nil_r. split_and!; done.
  - destruct (line_colors line) as [colors_hex|] eqn:Hline.
    + rewrite (input_loop_accept _ _ _ _ _ _ Hline).
      destruct (IH (acc ++ [colors_hex]) (S n) (out ++ [Prompt n]))
        as (read & Hread & Hres & Hunread).
      exists (line :: read). simpl. rewrite Hline. simpl.
      split_and!; [by f_equal| |].
      * destruct (result_of _) as [lists|status].
        -- destruct Hres as [-> Hne]. by rewrite <- app_assoc in *.
        -- destruct Hres as (_ & Hacc & _). by destruct acc.
      * intros (read' & blank & -> & Hb)%Hunread.
        by exists (line :: read'), blank.
    + destruct (decide (Text.strip line = [] ∧ acc ≠ [])) as [[Hb Hne]|Hcase].
      * rewrite input_loop_stop by done. exists [line]. simpl.
        rewrite Hline. simpl. rewrite app_nil_r.
        split_and!; [done..|]. intros _. by exists [], line.
      * destruct (input_loop_reject line rest acc n out Hline) as [out' ->].
        { destruct (decide (Text.strip line = [])); [|by left].
          right. destruct acc; [done|]. exfalso. by apply Hcase. }
        destruct (IH acc n out') as (read & Hread & Hres & Hunread).
        exists (line :: read). simpl. rewrite Hline.
        split_and!; [by f_equal|done|].
        intros (read' & blank & -> & Hb)%Hunread.
        by exists (line :: read'), blank.
Qed.

Lemma returned_lists_shape (stdin : list str)
    (color_lists_hex : list (list str)) :
  result_of (get_color_lists_from_user stdin) = Returned color_lists_hex →
  color_lists_hex ≠ [] ∧
  Forall (λ colors_hex, (2 ≤ length colors_hex)%nat ∧
                        Forall clean_color colors_hex) color_lists_hex.
Proof.
  unfold get_color_lists_from_user. intros Hres.
  destruct (input_loop_spec stdin [] 1%nat []) as (read & _ & Hspec & _).
  rewrite Hres in Hspec. destruct Hspec as [-> Hne]. split; [done|].
  simpl. clear. induction read as [|l read IH]; simpl; [by constructor|].
  destruct (line_colors l) eqn:E; [|done]. simpl.
  constructor; [by apply (line_colors_clean l)|done].
Qed.

(** * Extra properties: the input stage *)

(** X4. What the input function returns is never empty, and every list
    in it has at least two colour texts, each of them non-empty,
    stripped and accepted by [validate_hex_color]. *)
Theorem returned_lists_are_clean (stdin : list str)
    (color_lists_hex : list (list str)) :
  result_of (get_color_lists_from_user stdin) = Returned color_lists_hex →
  color_lists_hex ≠ [] ∧
  Forall (λ colors_hex, (2 ≤ length colors_hex)%nat ∧
                        Forall clean_color colors_hex) color_lists_hex.
Proof. apply returned_lists_shape. Qed.

Lemma returned_lists_are_clean_witness :
  result_of (get_color_lists_from_user
               [text ""; text "zz, #ff0000"; text " #FF0000 ,, 00ff00 ";
                text ""; text "#000000,#ffffff"])
  = Returned [[text "#FF0000"; text "00ff00"]] ∧
  Forall (λ colors_hex : list str,
            (2 ≤ length colors_hex)%nat ∧ Forall clean_color colors_hex)
         [[text "#FF0000"; text "00ff00"]].
Proof.
  split; [reflexivity|].
  apply (returned_lists_are_clean
           [text ""; text "zz, #ff0000"; text " #FF0000 ,, 00ff00 ";
            text ""; text "#000000,#ffffff"]).
  reflexivity.
Defined.

(** X5. The input function leaves through [sys.exit] exactly when no
    typed line gives a colour list, and then with status 1; so when it
    returns, the check of line 95 cannot fire. *)
Theorem exits_iff_no_list (stdin : list str) :
  (∀ status,
     result_of (get_color_lists_from_user stdin) = Exited status ↔
     status = 1 ∧ Forall (λ line, line_colors line = None) stdin) ∧
  result_of (get_color_lists_from_user stdin) ≠ Returned [].
Proof.
  unfold get_color_lists_from_user.
  destruct (input_loop_spec stdin [] 1%nat []) as (read & Hread & Hspec & _).
  destruct (result_of (input_loop stdin [] 1%nat [])) as [lists|st].
  - destruct Hspec as [Hlists Hne]. simpl in Hlists. split.
    + intros status. split; [done|]. intros [_ Hall]. exfalso.
      apply Hne. rewrite Hlists. apply omap_line_colors_nil.
      rewrite Hread in Hall. by apply Forall_app in Hall as [? _].
    + congruence.
  - destruct Hspec as (-> & _ & Hnil & Hunread). split; [|done].
    intros status. split.
    + intros [= <-]. split; [done|].
      rewrite Hread, Hunread, app_nil_r. by apply omap_line_colors_nil.
    + by intros [-> _].
Qed.

(** X6. The returned lists are exactly what [line_colors] gives for the
    lines that were read, in typing order; rejected lines leave no
    trace.  Reading stops before the end of the input only right after
    a blank line, and the lines after it stay unread. *)
Theorem returned_lists_follow_input (stdin : list str) :
  ∃ read,
    stdin = read ++ unread (get_color_lists_from_user stdin) ∧
    (∀ color_lists_hex,
       result_of (get_color_lists_from_user stdin) = Returned color_lists_hex →
       color_lists_hex = omap line_colors read) ∧
    (unread (get_color_lists_from_user stdin) ≠ [] →
     ∃ read' blank, read = read' ++ [blank] ∧ Text.strip blank = [] ∧
       omap line_colors read' ≠ []).
Proof.
  unfold get_color_lists_from_user.
  destruct (input_loop_spec stdin [] 1%nat [])
    as (read & Hread & Hspec & Hunread).
  exists read. split_and!; [done| |].
  - intros lists Hres. rewrite Hres in Hspec. by destruct Hspec.
  - intros Hne. destruct (Hunread Hne) as (read' & blank & -> & Hb).
    exists read', blank. split_and!; [done..|].
    destruct (result_of (input_loop stdin [] 1%nat [])) as [lists|st].
    + destruct Hspec as [-> Hlists]. simpl in Hlists.
      rewrite omap_app in Hlists. simpl in Hlists.
      rewrite (line_colors_blank blank Hb) in Hlists.
      by rewrite app_nil_r in Hlists.
    + by destruct Hspec as (_ & _ & _ & ?).
Qed.

(** * From the typed lines to the frames *)

Lemma num_frames_ge_group groups g :
  Forall (λ g, (1 ≤ length g)%nat) groups → g ∈ groups →
  len g ≤ num_frames groups.
Proof.
  intros Hall Hg. apply Z.divide_pos_le.
  - by apply num_frames_pos.
  - by apply num_frames_divides.
Qed.

Section stage3_facts.
Variable py_int16 : str → option Z.
Hypothesis Hpy : reads_hex_pairs py_int16.

Lemma convert_list_clean hex_list :
  Forall clean_color hex_list →
  ∃ rgb_list, convert_list py_int16 hex_list = Ok rgb_list ∧
    length rgb_list = length hex_list ∧ Forall byte_color rgb_list.
Proof.
  induction 1 as [|c cs (Hvalid & _ & Hstrip) _ (rgb & Hrgb & Hlen & Hbytes)];
    simpl.
  - by exists [].
  - destruct (hex_to_rgb_valid py_int16 Hpy c Hvalid)
      as (r & g & b & Hc & Hr & Hg & Hb).
    rewrite Hstrip in Hc. rewrite Hc, Hrgb.
    exists ((r, g, b) :: rgb). split_and!; [done|by simpl; f_equal|].
    by constructor.
Qed.

Lemma convert_and_register_clean color_lists_hex :
  ∀ i color_lists_rgb st,
  Forall (λ hex_list, Forall clean_color hex_list) color_lists_hex →
  ∃ groups,
    convert_and_register py_int16 i color_lists_hex color_lists_rgb st
    = Ok (color_lists_rgb ++ groups, Registry.register_groups i groups st) ∧
    Forall2 (λ hex_list rgb_list,
               length rgb_list = length hex_list ∧ Forall byte_color rgb_list)
            color_lists_hex groups.
Proof.
  induction color_lists_hex as [|l ls IH]; intros i acc st Hall; simpl.
  - exists []. rewrite app_nil_r. split; [done|constructor].
  - apply Forall_cons in Hall as [Hl Hls].
    destruct (convert_list_clean l Hl) as (rgb & -> & Hlen & Hbytes).
    destruct (IH (S i) (acc ++ [rgb]) (Registry.register_group i st rgb) Hls)
      as (groups & -> & Hall2).
    exists (rgb :: groups). rewrite <- app_assoc. split; [done|].
    by constructor.
Qed.
End stage3_facts.

(** * Extra properties: conversion of the typed lists and the run *)

(** X7. The conversion of stage 3 cannot fail on what the input function
    returned: every list converts, to a group of the same length (so of
    at least two colours) with channels between 0 and 255, and the
    registry state is the one built from these groups.  The
    [ValueError] handler of line 118 is never entered. *)
Theorem conversion_never_fails (py_int16 : str → option Z)
    (stdin : list str) (color_lists_hex : list (list str)) :
  reads_hex_pairs py_int16 →
  result_of (get_color_lists_from_user stdin) = Returned color_lists_hex →
  ∃ color_lists_rgb,
    convert_and_register py_int16 0 color_lists_hex [] Registry.initial
    = Ok (color_lists_rgb, Registry.build color_lists_rgb) ∧
    color_lists_rgb ≠ [] ∧
    Forall2 (λ hex_list rgb_list, length rgb_list = length hex_list)
            color_lists_hex color_lists_rgb ∧
    Forall (λ rgb_list, (2 ≤ length rgb_list)%nat ∧
                        Forall byte_color rgb_list) color_lists_rgb.
Proof.
  intros Hpy Hres.
  destruct (returned_lists_shape stdin color_lists_hex Hres) as [Hne Hclean].
  destruct (convert_and_register_clean py_int16 Hpy color_lists_hex 0 []
              Registry.initial) as (groups & Hconv & Hall2).
  { eapply Forall_impl; [done|]. by intros l [_ ?]. }
  exists groups. split_and!; [done| | |].
  - intros ->. apply Forall2_nil_inv_r in Hall2. done.
  - eapply Forall2_impl; [done|]. by intros l g [? _].
  - clear Hconv Hne Hres. induction Hall2 as [|l g ls gs [Hlen Hb] _ IH].
    + constructor.
    + apply Forall_cons in Hclean as [[Hl _] Hclean].
      constructor; [split; [lia|done]|by apply IH].
Qed.

Lemma conversion_never_fails_witness :
  convert_and_register hex_pair_int 0
    [[text "#FF0000"; text "00ff00"; text "#ff0000"]] [] Registry.initial
  = Ok ([[red; green; red]], Registry.build [[red; green; red]]).
Proof.
  destruct (conversion_never_fails hex_pair_int
              [text " #FF0000 , 00ff00,#ff0000"; text ""]
              [[text "#FF0000"; text "00ff00"; text "#ff0000"]]
              hex_pair_int_reads eq_refl) as (groups & Hconv & _).
  rewrite Hconv. vm_compute in Hconv.
  injection Hconv as Hgroups _. by rewrite <- Hgroups.
Defined.

(** X8. Whenever the input function returns, the run reaches stage 7
    with frames: none of the exits of lines 95, 118 and 185 is taken,
    there are at least two frames (so [frames[0]] exists), and every
    frame has as many pixels as the image.  When the input function
    exits, so does the run, with the same status. *)
Theorem run_reaches_save (py_int16 : str → option Z) (stdin : list str)
    (image_data : list Color) (σ : gmap Store.loc (list Color)) :
  reads_hex_pairs py_int16 →
  match result_of (get_color_lists_from_user stdin) with
  | Exited status =>
      main_frames py_int16 stdin image_data σ = Exited status
  | Returned _ =>
      ∃ frames,
        main_frames py_int16 stdin image_data σ = Returned frames ∧
        (2 ≤ length frames)%nat ∧
        Forall (λ frame_image, length frame_image = length image_data) frames
  end.
Proof.
  intros Hpy. unfold main_frames.
  destruct (result_of (get_color_lists_from_user stdin))
    as [lists|status] eqn:Hres; [|done].
  destruct (conversion_never_fails py_int16 stdin lists Hpy Hres)
    as (groups & -> & Hne & _ & Hgroups).
  destruct (returned_lists_shape stdin lists Hres) as [Hlists _].
  rewrite decide_False by done.
  destruct (run_spec groups image_data σ) as (frames & σ' & -> & Hall & _).
  exists frames. split_and!; [done| |].
  - pose proof (Forall2_length _ _ _ Hall) as Hlen.
    rewrite length_range in Hlen.
    destruct groups as [|g groups]; [done|].
    assert (len g ≤ num_frames (g :: groups)) as Hle.
    { apply num_frames_ge_group; [|by left].
      eapply Forall_impl; [done|]. simpl. lia. }
    apply Forall_cons in Hgroups as [[Hg _] _]. unfold len in Hle. lia.
  - clear -Hall. induction Hall as [|k fr ks frs (table & _ & ->) _ IH].
    + constructor.
    + constructor; [by rewrite length_fmap|done].
Qed.

Lemma run_reaches_save_witness :
  main_frames hex_pair_int [text "ff0000, 00ff00, 0000ff"; text ""]
              [red; blue; grey] ∅
  = Returned [[red; blue; grey]; [green; red; grey]; [blue; green; grey]].
Proof.
  pose proof (run_reaches_save hex_pair_int
                [text "ff0000, 00ff00, 0000ff"; text ""]
                [red; blue; grey] ∅ hex_pair_int_reads) as H.
  destruct H as (frames & Hrun & _). rewrite Hrun.
  vm_compute in Hrun. by injection Hrun as <-.
Defined.

(** * Warnings and frame counts *)

Lemma repeats_length seen l :
  (length (repeats seen l) + size (list_to_set l ∪ seen) = length l + size seen)%nat.
Proof.
  revert seen. induction l as [|x l IH]; intros seen; simpl.
  - by rewrite (left_id_L ∅ (∪)).
  - rewrite length_app.
    assert (list_to_set l ∪ ({[x]} ∪ seen) = {[x]} ∪ list_to_set l ∪ seen)
      as Heq by set_solver.
    specialize (IH ({[x]} ∪ seen)). rewrite Heq in IH.
    destruct (decide (x ∈ seen)) as [Hx|Hx]; simpl.
    + assert ({[x]} ∪ seen = seen) as Hs by set_solver.
      rewrite Hs in IH |- *. lia.
    + rewrite (size_union {[x]} seen), size_singleton in IH by set_solver. lia.
Qed.

Lemma repeats_nil seen l :
  repeats seen l = [] ↔ NoDup l ∧ ∀ x, x ∈ l → x ∉ seen.
Proof.
  revert seen. induction l as [|x l IH]; intros seen; simpl.
  - split; [|done]. intros _. split; [constructor|].
    by intros x ?%elem_of_nil.
  - rewrite NoDup_cons. destruct (decide (x ∈ seen)) as [Hx|Hx]; simpl.
    + split; [done|]. intros [_ Hall]. exfalso.
      apply (Hall x); [by left|done].
    + rewrite IH. split.
      * intros [Hnd Hall]. split_and!; [|done|].
        -- intros Hin. apply (Hall x Hin). set_solver.
        -- intros y [->|Hy]%elem_of_cons; [done|].
           specialize (Hall y Hy). set_solver.
      * intros [[Hx' Hnd] Hall]. split; [done|].
        intros y Hy. specialize (Hall y (list_elem_of_further _ _ _ Hy)).
        set_solver.
Qed.

Lemma fold_lcm_zero groups : ∀ n,
  foldl (λ (n : Z) (color_list : list Color), calculate_lcm n (len color_list))
        n groups = 0
  ↔ n = 0 ∨ ∃ g, g ∈ groups ∧ g = [].
Proof.
  induction groups as [|g groups IH]; intros n; simpl.
  - split; [by left|]. intros [?|(g & ?%elem_of_nil & _)]; done.
  - rewrite IH, calculate_lcm_lcm, Z.lcm_eq_0. split.
    + intros [[Hn|Hg]|(g' & Hin & ->)].
      * by left.
      * right. exists g. split; [by left|].
        destruct g; [done|]. unfold len in Hg. simpl in Hg. lia.
      * right. exists []. split; [by right|done].
    + intros [Hn|(g' & [->|Hin]%elem_of_cons & ->)].
      * left. by left.
      * left. by right.
      * right. by exists [].
Qed.

(** * Extra properties: warnings and the number of frames *)

(** X9. Warnings count the repetitions: the number of warnings plus the
    number of distinct target colours is the number of colours typed,
    and no warning is printed exactly when no colour occurs twice. *)
Theorem warnings_count_repetitions (groups : list (list Color)) :
  (length (Registry.warnings (Registry.build groups))
   + size (Registry.all_target_colors_rgb (Registry.build groups))
   = length (concat groups))%nat ∧
  (Registry.warnings (Registry.build groups) = [] ↔ NoDup (concat groups)).
Proof.
  unfold Registry.build at 1 3. rewrite !register_groups_warnings. simpl.
  rewrite build_targets. split.
  - pose proof (repeats_length ∅ (concat groups)) as H.
    rewrite (right_id_L ∅ (∪)), size_empty in H. lia.
  - rewrite repeats_nil. split; [by intros [? _]|].
    intros Hnd. split; [done|]. set_solver.
Qed.

(** X10. The guard of [calculate_lcm] decides the degenerate case: the
    frame count is 0 exactly when some group is empty, and then the run
    produces no frame at all; otherwise it is positive. *)
Theorem zero_frames_iff_empty_group (groups : list (list Color))
    (image : list Color) (σ : gmap Store.loc (list Color)) :
  (num_frames groups = 0 ↔ ∃ g, g ∈ groups ∧ g = []) ∧
  ((∃ g, g ∈ groups ∧ g = []) →
   ∃ base_pixels σ', Render.run groups image σ = Some (base_pixels, [], σ')) ∧
  ((∀ g, g ∈ groups → g ≠ []) → 0 < num_frames groups).
Proof.
  assert (num_frames groups = 0 ↔ ∃ g, g ∈ groups ∧ g = []) as Hzero.
  { destruct groups as [|g0 groups]; simpl.
    - split; [done|]. by intros (g & ?%elem_of_nil & _).
    - rewrite fold_lcm_zero. split.
      + intros [Hn|(g & Hin & ->)].
        * exists g0. split; [by left|].
          destruct g0; [done|]. unfold len in Hn. simpl in Hn. lia.
        * exists []. split; [by right|done].
      + intros (g & [->|Hin]%elem_of_cons & ->); [by left|].
        right. by exists []. }
  split_and!; [done| |].
  - intros Hempty%Hzero.
    destruct (run_spec groups image σ) as (frames & σ' & Hrun & Hall & _).
    rewrite Hempty in Hall. apply Forall2_nil_inv_l in Hall as ->.
    by eexists _, _.
  - intros Hne. pose proof (num_frames_nonneg groups).
    destruct (decide (num_frames groups = 0)) as [Hz|]; [|lia].
    apply Hzero in Hz as (g & Hin & ->). by destruct (Hne [] Hin).
Qed.

(** X11. The order in which the groups are typed does not change the
    number of frames. *)
Theorem num_frames_order_independent (groups groups' : list (list Color)) :
  groups ≡ₚ groups' → num_frames groups = num_frames groups'.
Proof.
  intros Hperm. apply Z.divide_antisym_nonneg; try apply num_frames_nonneg.
  - apply num_frames_least. intros g Hg. apply num_frames_divides.
    by rewrite <- Hperm.
  - apply num_frames_least. intros g Hg. apply num_frames_divides.
    by rewrite Hperm.
Qed.

Lemma num_frames_order_independent_witness :
  num_frames [[red; green]; [blue; grey; red]]
  = num_frames [[blue; grey; red]; [red; green]].
Proof.
  apply num_frames_order_independent.
  apply Permutation_swap.
Defined.

(** X12. For non-empty groups the frame count lies between the length
    of the longest group and the product of all group lengths. *)
Theorem num_frames_bounds (groups : list (list Color)) :
  Forall (λ g, (1 ≤ length g)%nat) groups →
  (∀ g, g ∈ groups → len g ≤ num_frames groups) ∧
  num_frames groups ≤ foldr Z.mul 1 (len <$> groups).
Proof.
  intros Hall. split.
  - intros g Hg. by apply num_frames_ge_group.
  - destruct groups as [|g0 groups]; simpl; [lia|].
    apply Forall_cons in Hall as [Hg0 Hall].
    assert (0 < len g0) as Hpos by (unfold len; lia).
    revert Hpos. generalize (len g0). clear Hg0.
    induction Hall as [|g groups Hg Hall IH]; intros n Hn; simpl; [lia|].
    assert (0 < len g) as Hlg by (unfold len; lia).
    assert (0 < calculate_lcm n (len g) ≤ n * len g) as [Hlo Hhi].
    { unfold calculate_lcm. rewrite decide_True by lia.
      rewrite Z.abs_eq by nia.
      pose proof (Z.gcd_nonneg n (len g)).
      assert (Z.gcd n (len g) ≠ 0) by (rewrite Z.gcd_eq_0; lia).
      destruct (Z.gcd_divide_l n (len g)) as [q Hq].
      split.
      - apply Z.div_str_pos. split; [lia|].
        apply Z.divide_pos_le; [nia|].
        apply Z.divide_mul_l, Z.gcd_divide_l.
      - apply Z.div_le_upper_bound; nia. }
    rewrite drop_0 in IH.
    etrans; [apply IH; lia|].
    assert (0 < foldr Z.mul 1 (len <$> groups)) as Hprod.
    { clear -Hall. induction Hall as [|g' gs Hg' _ IH]; [done|].
      change (0 < len g' * foldr Z.mul 1 (len <$> gs)).
      apply Z.mul_pos_pos; [unfold len; lia|done]. }
    rewrite Z.mul_assoc.
    apply Z.mul_le_mono_nonneg_r; [apply Z.lt_le_incl, Hprod|exact Hhi].
Qed.

Lemma num_frames_bounds_witness :
  3 ≤ num_frames [[red; green]; [blue; grey; red]] ≤ 6.
Proof.
  assert (Forall (λ g : list Color, (1 ≤ length g)%nat)
                 [[red; green]; [blue; grey; red]]) as Hall.
  { repeat constructor. }
  destruct (num_frames_bounds [[red; green]; [blue; grey; red]] Hall)
    as [Hlow Hup].
  split.
  - apply (Hlow [blue; grey; red]). set_solver.
  - exact Hup.
Defined.

(** * Tables of groups without repeated colours *)

Lemma entry_inv color_list_map k groups c v :
  entry color_list_map k groups c = Some v →
  ∃ owner g j,
    color_list_map !! c = Some owner ∧ groups !! owner = Some g ∧
    last_index c g = Some j ∧ rotated k g j = Some v.
Proof.
  unfold entry. intros H.
  destruct (color_list_map !! c) as [owner|]; simpl in H; [|done].
  destruct (groups !! owner) as [g|] eqn:Hg; simpl in H; [|done].
  destruct (last_index c g) as [j|] eqn:Hj; simpl in H; [|done].
  by exists owner, g, j.
Qed.

Lemma entry_in_group color_list_map k groups c v :
  entry color_list_map k groups c = Some v →
  ∃ g, g ∈ groups ∧ c ∈ g ∧ v ∈ g.
Proof.
  intros (owner & g & j & _ & Hg & Hj & Hv)%entry_inv.
  exists g. split_and!.
  - by eapply list_elem_of_lookup_2.
  - eapply list_elem_of_lookup_2. by apply last_index_lookup.
  - by eapply list_elem_of_lookup_2.
Qed.

Lemma NoDup_concat_group (groups : list (list Color)) g :
  NoDup (concat groups) → g ∈ groups → NoDup g.
Proof.
  induction groups as [|g' groups IH]; simpl.
  - by intros _ ?%elem_of_nil.
  - intros (Hg' & _ & Hrest)%NoDup_app [->|Hin]%elem_of_cons; auto.
Qed.

Lemma NoDup_concat_unique (groups : list (list Color)) :
  NoDup (concat groups) →
  ∀ i i' g g' x,
    groups !! i = Some g → groups !! i' = Some g' → x ∈ g → x ∈ g' → i = i'.
Proof.
  induction groups as [|g0 groups IH]; simpl; [done|].
  intros (_ & Hdisj & Hrest)%NoDup_app i i' g g' x Hi Hi' Hx Hx'.
  destruct i as [|i], i' as [|i']; simpl in *; simplify_eq; [done| | |].
  - exfalso. apply (Hdisj x Hx), elem_of_concat. exists g'.
    split; [by eapply list_elem_of_lookup_2|done].
  - exfalso. apply (Hdisj x Hx'), elem_of_concat. exists g.
    split; [by eapply list_elem_of_lookup_2|done].
  - f_equal. by eapply IH.
Qed.

(** Without repetitions, the entry of a colour is the rotation of its
    place in its group. *)
Lemma entry_NoDup groups k owner g j c :
  NoDup (concat groups) →
  groups !! owner = Some g → g !! j = Some c →
  entry (Registry.color_list_map (Registry.build groups)) k groups c
  = rotated k g j.
Proof.
  intros Hnd Hg Hj.
  assert (c ∈ g) as Hc by (by eapply list_elem_of_lookup_2).
  assert (first_group c groups = Some owner) as Hfirst.
  { apply first_group_spec. exists g. split_and!; [done..|].
    intros j' g' Hlt Hg' Hc'.
    pose proof (NoDup_concat_unique groups Hnd _ _ _ _ _ Hg Hg' Hc Hc'). lia. }
  assert (last_index c g = Some j) as Hlast.
  { apply last_index_unique; [done|]. intros j' Hlt Hj'.
    assert (NoDup g) as Hg_nd.
    { eapply NoDup_concat_group; [done|]. by eapply list_elem_of_lookup_2. }
    pose proof (NoDup_lookup _ _ _ _ Hg_nd Hj Hj'). lia. }
  unfold entry. rewrite build_lookup, Hfirst. simpl. rewrite Hg. simpl.
  by rewrite Hlast.
Qed.

Lemma rotated_index_inj k (L : Z) (j1 j2 : nat) :
  Z.of_nat j1 < L → Z.of_nat j2 < L →
  Z.to_nat ((Z.of_nat j1 + k) `mod` L) = Z.to_nat ((Z.of_nat j2 + k) `mod` L) →
  j1 = j2.
Proof.
  intros H1 H2 Heq.
  assert (0 < L) as HL by lia.
  pose proof (Z.mod_pos_bound (Z.of_nat j1 + k) L HL) as B1.
  pose proof (Z.mod_pos_bound (Z.of_nat j2 + k) L HL) as B2.
  assert ((Z.of_nat j1 + k) `mod` L = (Z.of_nat j2 + k) `mod` L) as Hmod by lia.
  pose proof (Z.div_mod (Z.of_nat j1 + k) L) as D1.
  pose proof (Z.div_mod (Z.of_nat j2 + k) L) as D2.
  assert ((Z.of_nat j1 + k) `div` L = (Z.of_nat j2 + k) `div` L) by nia.
  nia.
Qed.

Section nodup_tables.
Variable groups : list (list Color).
Hypothesis Hnd : NoDup (concat groups).

Abbreviation registry_map :=
  (Registry.color_list_map (Registry.build groups)).

Lemma entry_injective k c1 c2 v :
  entry registry_map k groups c1 = Some v →
  entry registry_map k groups c2 = Some v →
  c1 = c2.
Proof.
  intros (o1 & g1 & j1 & _ & Hg1 & Hj1 & Hv1)%entry_inv
         (o2 & g2 & j2 & _ & Hg2 & Hj2 & Hv2)%entry_inv.
  assert (o1 = o2) as <-.
  { eapply (NoDup_concat_unique groups Hnd); [done..| |];
      by eapply list_elem_of_lookup_2. }
  assert (g2 = g1) as -> by congruence.
  assert (NoDup g1) as Hg_nd.
  { eapply NoDup_concat_group; [done|]. by eapply list_elem_of_lookup_2. }
  apply last_index_lookup in Hj1, Hj2.
  pose proof (lookup_lt_Some _ _ _ Hj1). pose proof (lookup_lt_Some _ _ _ Hj2).
  unfold rotated in Hv1, Hv2.
  pose proof (NoDup_lookup _ _ _ _ Hg_nd Hv1 Hv2) as Heq.
  apply rotated_index_inj in Heq; [|unfold len; lia..].
  congruence.
Qed.

Lemma entry_compose k1 k2 c v :
  entry registry_map k1 groups c = Some v →
  entry registry_map k2 groups v = entry registry_map (k1 + k2) groups c.
Proof.
  intros Hentry.
  pose proof Hentry as (o & g & j & _ & Hg & Hj & Hv)%entry_inv.
  apply last_index_lookup in Hj.
  pose proof (lookup_lt_Some _ _ _ Hj) as Hlt.
  unfold rotated in Hv.
  rewrite (entry_NoDup groups k2 o g _ v Hnd Hg Hv).
  rewrite (entry_NoDup groups (k1 + k2) o g j c Hnd Hg Hj).
  unfold rotated. f_equal. f_equal.
  assert (0 < len g) as HL by (unfold len; lia).
  pose proof (Z.mod_pos_bound (Z.of_nat j + k1) (len g) HL).
  rewrite Z2Nat.id by lia.
  rewrite Zplus_mod_idemp_l. f_equal. lia.
Qed.

Lemma entry_key_of_value k c v k' :
  entry registry_map k groups c = Some v →
  is_Some (entry registry_map k' groups v).
Proof.
  intros (g & Hg & _ & Hv)%entry_in_group.
  destruct (list_elem_of_lookup_1 _ _ Hg) as [o Ho].
  destruct (list_elem_of_lookup_1 _ _ Hv) as [j Hj].
  rewrite (entry_NoDup groups k' o g j v Hnd Ho Hj).
  apply rotated_is_Some. intros ->. by apply elem_of_nil in Hv.
Qed.
End nodup_tables.

Lemma entry_None_iff groups k c :
  entry (Registry.color_list_map (Registry.build groups)) k groups c = None
  ↔ ∀ g, g ∈ groups → c ∉ g.
Proof.
  split; [|apply entry_not_target].
  intros Hnone g Hg Hc.
  destruct (first_group c groups) as [owner|] eqn:Hfirst.
  - pose proof Hfirst as (g' & Hg' & _)%first_group_spec.
    destruct (entry_owner groups k c owner g' Hfirst Hg')
      as (i & v & _ & _ & He). congruence.
  - by eapply first_group_None.
Qed.

(** * Extra properties: the frames *)

(** X13. A frame never invents a colour: in every frame of the run each
    pixel is either the source pixel at that place, or a colour of a
    group that also contains the source pixel's colour. *)
Theorem frame_pixels_come_from_groups (groups : list (list Color))
    (image : list Color) (σ : gmap Store.loc (list Color)) :
  ∃ base_pixels frames σ',
    Render.run groups image σ = Some (base_pixels, frames, σ') ∧
    ∀ f frame_image i q,
      frames !! f = Some frame_image → frame_image !! i = Some q →
      ∃ p, image !! i = Some p ∧
        (q = p ∨ ∃ g, g ∈ groups ∧ p ∈ g ∧ q ∈ g).
Proof.
  destruct (run_spec groups image σ) as (frames & σ' & Hrun & Hall & _).
  exists (fresh (dom σ)), frames, σ'. split; [done|].
  intros f fr i q Hf Hi.
  destruct (Forall2_lookup_r _ _ _ _ _ Hall Hf)
    as (k & _ & table & Htable & ->).
  rewrite list_lookup_fmap in Hi.
  destruct (image !! i) as [p|] eqn:Hp; simpl in Hi; [|done].
  injection Hi as <-. exists p. split; [done|].
  destruct (build_entry (Registry.color_list_map (Registry.build groups))
              k groups) as (t & Ht & Hlook).
  assert (t = table) as -> by congruence.
  unfold substitute. rewrite Hlook.
  destruct (entry _ k groups p) as [v|] eqn:He; simpl; [|by left].
  right. by eapply entry_in_group.
Qed.

(** X14. When no colour is repeated, within a group or across groups,
    the substitution of every frame merges no colours: two different
    colours are never sent to the same colour, so pixels that differ in
    the source differ in every frame. *)
Theorem substitution_merges_nothing (groups : list (list Color)) (k : Z) :
  NoDup (concat groups) →
  ∃ table,
    FrameMap.build (Registry.color_list_map (Registry.build groups)) k groups
      = Some table ∧
    ∀ p1 p2, substitute table p1 = substitute table p2 → p1 = p2.
Proof.
  intros Hnd.
  destruct (build_entry (Registry.color_list_map (Registry.build groups))
              k groups) as (table & Htable & Hlook).
  exists table. split; [done|]. intros p1 p2. unfold substitute.
  rewrite !Hlook.
  destruct (entry _ k groups p1) as [v1|] eqn:E1,
           (entry _ k groups p2) as [v2|] eqn:E2; simpl.
  - intros <-. by eapply entry_injective.
  - intros ->. exfalso.
    destruct (entry_key_of_value groups Hnd k p1 p2 k E1) as [? ?]. congruence.
  - intros <-. exfalso.
    destruct (entry_key_of_value groups Hnd k p2 p1 k E2) as [? ?]. congruence.
  - done.
Qed.

Lemma substitution_merges_nothing_witness :
  NoDup (concat [[red; green]; [blue; grey]]) ∧
  ∃ table,
    FrameMap.build
      (Registry.color_list_map (Registry.build [[red; green]; [blue; grey]]))
      1 [[red; green]; [blue; grey]] = Some table ∧
    ∀ p1 p2, substitute table p1 = substitute table p2 → p1 = p2.
Proof.
  assert (NoDup (concat [[red; green]; [blue; grey]])) as Hnd.
  { apply (bool_decide_unpack _). by vm_compute. }
  split; [done|].
  exact (substitution_merges_nothing [[red; green]; [blue; grey]] 1 Hnd).
Defined.

(** X15. When no colour is repeated, frames compose: substituting with
    the table of frame [k1] and then with the table of frame [k2] is
    substituting with the table of frame [k1 + k2]. *)
Theorem substitutions_compose (groups : list (list Color)) (k1 k2 : Z) :
  NoDup (concat groups) →
  ∃ t1 t2 t12,
    FrameMap.build (Registry.color_list_map (Registry.build groups)) k1 groups
      = Some t1 ∧
    FrameMap.build (Registry.color_list_map (Registry.build groups)) k2 groups
      = Some t2 ∧
    FrameMap.build (Registry.color_list_map (Registry.build groups))
                   (k1 + k2) groups = Some t12 ∧
    ∀ p, substitute t2 (substitute t1 p) = substitute t12 p.
Proof.
  intros Hnd.
  destruct (build_entry (Registry.color_list_map (Registry.build groups))
              k1 groups) as (t1 & Ht1 & Hl1).
  destruct (build_entry (Registry.color_list_map (Registry.build groups))
              k2 groups) as (t2 & Ht2 & Hl2).
  destruct (build_entry (Registry.color_list_map (Registry.build groups))
              (k1 + k2) groups) as (t12 & Ht12 & Hl12).
  exists t1, t2, t12. split_and!; [done..|].
  intros p. unfold substitute. rewrite Hl1, Hl12.
  destruct (entry _ k1 groups p) as [v|] eqn:E1; simpl.
  - rewrite Hl2, (entry_compose groups Hnd k1 k2 p v E1).
    destruct (entry _ (k1 + k2) groups p) as [w|] eqn:E12; [done|].
    pose proof (proj1 (entry_None_iff groups _ p) E12) as Hout.
    rewrite (entry_not_target groups k1 p Hout) in E1. done.
  - rewrite Hl2.
    pose proof (proj1 (entry_None_iff groups _ p) E1) as Hout.
    by rewrite !(entry_not_target groups _ p Hout).
Qed.

Lemma substitutions_compose_witness :
  ∃ t1 t2 t3,
    FrameMap.build
      (Registry.color_list_map (Registry.build [[red; green; blue]]))
      1 [[red; green; blue]] = Some t1 ∧
    FrameMap.build
      (Registry.color_list_map (Registry.build [[red; green; blue]]))
      2 [[red; green; blue]] = Some t2 ∧
    FrameMap.build
      (Registry.color_list_map (Registry.build [[red; green; blue]]))
      (1 + 2) [[red; green; blue]] = Some t3 ∧
    ∀ p, substitute t2 (substitute t1 p) = substitute t3 p.
Proof.
  apply (substitutions_compose [[red; green; blue]] 1 2).
  apply (bool_decide_unpack _). by vm_compute.
Defined.

(** X16. The table of a frame depends only on the frame index modulo
    the frame count: adding any whole number of cycles changes
    nothing. *)
Theorem table_repeats_every_cycle (groups : list (list Color)) (k q : Z) :
  FrameMap.build (Registry.color_list_map (Registry.build groups))
                 (k + q * num_frames groups) groups
  = FrameMap.build (Registry.color_list_map (Registry.build groups)) k groups
  ∧ (num_frames groups ≠ 0 →
     FrameMap.build (Registry.color_list_map (Registry.build groups))
                    (k `mod` num_frames groups) groups
     = FrameMap.build (Registry.color_list_map (Registry.build groups))
                      k groups).
Proof.
  assert (∀ k q,
    FrameMap.build (Registry.color_list_map (Registry.build groups))
                   (k + q * num_frames groups) groups
    = FrameMap.build (Registry.color_list_map (Registry.build groups))
                     k groups) as Hshift.
  { clear k q. intros k q.
    destruct (build_entry (Registry.color_list_map (Registry.build groups))
                k groups) as (t1 & -> & Hl1).
    destruct (build_entry (Registry.color_list_map (Registry.build groups))
                (k + q * num_frames groups) groups) as (t2 & -> & Hl2).
    f_equal. apply map_eq. intros c. rewrite Hl1, Hl2. unfold entry.
    destruct (_ !! c) as [owner|]; simpl; [|done].
    destruct (groups !! owner) as [g|] eqn:Hg; simpl; [|done].
    destruct (last_index c g) as [j|]; simpl; [|done].
    apply rotated_period. apply Z.divide_mul_r, num_frames_divides.
    by eapply list_elem_of_lookup_2. }
  split; [apply Hshift|]. intros Hnz.
  rewrite <- (Hshift (k `mod` num_frames groups) (k `div` num_frames groups)).
  f_equal. pose proof (Z.div_mod k (num_frames groups) Hnz). lia.
Qed.

(** * Validation against conversion *)

Lemma lstrip_chars_split (p : ascii → bool) (s : str) :
  ∃ ws, s = ws ++ Text.lstrip_chars p s ∧ Forall (λ c, p c = true) ws.
Proof.
  induction s as [|c s (ws & Hs & Hws)]; simpl.
  - by exists [].
  - destruct (p c) eqn:E.
    + exists (c :: ws). split; [by simpl; f_equal|by constructor].
    + by exists [].
Qed.

Lemma rstrip_chars_split (p : ascii → bool) (s : str) :
  ∃ ws, s = Text.rstrip_chars p s ++ ws ∧ Forall (λ c, p c = true) ws.
Proof.
  unfold Text.rstrip_chars.
  destruct (lstrip_chars_split p (reverse s)) as (ws & Hs & Hws).
  exists (reverse ws). split.
  - rewrite <- reverse_app, <- Hs. by rewrite reverse_involutive.
  - by apply Forall_reverse.
Qed.

Lemma lstrip_chars_drop (p : ascii → bool) c t :
  p c = true → Text.lstrip_chars p (c :: t) = Text.lstrip_chars p t.
Proof. intros Hc. simpl. by rewrite Hc. Qed.

Lemma strip_split (s : str) :
  ∃ before after,
    s = before ++ Text.strip s ++ after ∧
    Forall (λ c, Text.is_space c = true) before ∧
    Forall (λ c, Text.is_space c = true) after.
Proof.
  unfold Text.strip.
  destruct (lstrip_chars_split Text.is_space s) as (before & Hs & Hb).
  destruct (rstrip_chars_split Text.is_space
              (Text.lstrip_chars Text.is_space s)) as (after & Hs' & Ha).
  exists before, after. split_and!; [|done..].
  by rewrite <- Hs', <- Hs.
Qed.

(** * Extra properties: validation against conversion *)

(** X17. The validator forgives blanks around a colour text,
    [hex_to_rgb] does not: on an accepted text that is not already
    stripped it raises the wrong-length [ValueError], whatever [int]
    does.  This is why the input stage strips every field. *)
Theorem unstripped_text_is_refused (py_int16 : str → option Z) (s : str) :
  validate_hex_color s = true → Text.strip s ≠ s →
  ∃ hex_color,
    hex_to_rgb py_int16 s = Raise (InvalidFormat hex_color) ∧
    (7 ≤ length hex_color)%nat.
Proof.
  intros (a & b & c & d & e & f & Hall & Hshape)%validate_hex_color_shape Hne.
  destruct (strip_split s) as (before & after & Hs & Hb & Ha).
  assert (a ≠ "#"%char) as Ha_hash.
  { apply hex_digit_not_hash. by apply Forall_cons in Hall as [? _]. }
  assert (∀ t, Text.lstrip_chars (λ c, bool_decide (c = "#"%char))
                 (a :: t) = a :: t) as Hkeep.
  { intros t. apply lstrip_chars_keep. by apply bool_decide_eq_false. }
  unfold hex_to_rgb.
  destruct before as [|w before].
  - simpl in Hs.
    assert (after ≠ []) as Hafter.
    { intros ->. rewrite app_nil_r in Hs. congruence. }
    assert (1 ≤ length after)%nat as Hlen by (destruct after; simpl; [done|lia]).
    destruct Hshape as [Hshape|Hshape]; rewrite Hshape in Hs; rewrite Hs.
    + simpl app. rewrite Hkeep.
      eexists. rewrite decide_True; [split; [done|]|]; simpl; lia.
    + simpl app. rewrite lstrip_chars_drop by done. rewrite Hkeep.
      eexists. rewrite decide_True; [split; [done|]|]; simpl; lia.
  - apply Forall_cons in Hb as [Hw _].
    assert (Text.lstrip_chars (λ c, bool_decide (c = "#"%char)) s = s) as ->.
    { rewrite Hs. apply lstrip_chars_keep. apply bool_decide_eq_false.
      by intros ->. }
    assert (7 ≤ length s)%nat as Hlen.
    { rewrite Hs. simpl. rewrite !length_app.
      destruct Hshape as [-> | ->]; simpl; lia. }
    exists s. rewrite decide_True by lia. done.
Qed.

Lemma unstripped_text_is_refused_witness :
  validate_hex_color (text " ff0000") = true ∧
  hex_to_rgb hex_pair_int (text " ff0000")
  = Raise (InvalidFormat (text " ff0000")).
Proof.
  split; [reflexivity|].
  destruct (unstripped_text_is_refused hex_pair_int (text " ff0000"))
    as (t & Ht & _); [reflexivity|by vm_compute|].
  rewrite Ht. vm_compute in Ht. by injection Ht as <-.
Defined.
